(** * Quantization codec of onnxruntime: 4-bit blockwise blocks and QNN
      quantization parameters

    Shallow embedding of

    - [onnxruntime/core/providers/qnn/builder/qnn_utils.cc]:
      [CheckMinMax], [GetQminQmax], [Saturate], [GetQuantParams],
      [Dequantize], [Quantize]; [GetElementSizeByType],
      [OnnxDataTypeToQnnDataType], [GetQnnDataType]; the getters of
      [NodeAttrHelper];
    - [onnxruntime/core/providers/qnn/builder/qnn_utils.h]:
      [InvertPerm], [PermuteShape], [ArrayHasString];
    - [onnxruntime/contrib_ops/cpu/quantization/blockwise_quant_block.h]:
      [BlockwiseQuantBlock<T, block_size, 4>], both [quant] overloads and
      both [dequant] overloads.

    Conventions of the embedding.

    - A C++ [float] or [double] is an exact rational ([Q]): every
      arithmetic operation is the exact one, comparisons are the exact
      ones, and NaN and the infinities are not values of the model.  The
      template parameter [T] of the block is taken to be [float].
      Equality of such values is [Qeq] ([==]).
    - Fixed-width integers are [Z]; 32-bit signed arithmetic is written
      with its wrap-around ([wrap32]).  Indices into the source array of
      [quant] are not bounded.
    - The conversion of an integer limit to [float] rounds to the nearest
      binary32 value ([to_float]); the small integers of the block (a
      nibble, a zero-point) are converted exactly.
    - A conversion from a floating value to an integer type truncates
      towards zero.  When the truncated value does not fit the target
      type (or the floating value is not finite) C++ leaves the result
      undefined; the model takes it from the platform ([indefinite]),
      about which nothing is assumed.
    - A division whose divisor may be zero at run time is a checked
      operation: the blockwise code faults with [DivByZero], and the
      double-precision quotient of [Quantize] is a non-finite value.
    - Array writes, and reads of [main_blob], are checked: an access
      outside the array faults with [OutOfBounds].  So are the accesses
      to a [gsl::span].
    - A function that throws ([ORT_ENFORCE], [narrow]) returns an
      [outcome]: the value, or [Throws]. *)

From Stdlib Require Import ZArith QArith Qround Qabs Lia Lqa String Bool.
From stdpp Require Import base list strings gmap.

#[local] Unset Default Proof Using.
Local Open Scope Z_scope.

(** Linear arithmetic with divisions by constants. *)
Ltac zlia := Z.quot_rem_to_equations; Z.div_mod_to_equations; lia.

(** Linear arithmetic over [Q] with the integer constants of the code. *)
Ltac qlra :=
  change (inject_Z 0) with 0%Q in *;
  change (inject_Z 8) with 8%Q in *;
  change (inject_Z 15) with 15%Q in *;
  change (inject_Z 16) with 16%Q in *;
  change (inject_Z (-1)) with (-1 # 1)%Q in *;
  lra.

(** ** Numbers *)

Module Num.

(** binary32 and binary64 values, idealised. *)
Definition float : Type := Q.
Definition double : Type := Q.
Bind Scope Q_scope with float double.

(** [a < b] on floating values. *)
Definition fless (a b : Q) : bool :=
  match (a ?= b)%Q with Lt => true | _ => false end.

(** [std::max(a, b)] is [(a < b) ? b : a]. *)
Definition std_max (a b : Q) : Q := if fless a b then b else a.

(** [std::min(a, b)] is [(b < a) ? b : a]. *)
Definition std_min (a b : Q) : Q := if fless b a then b else a.

(** [abs] and [fabsf]. *)
Definition fabsf (x : Q) : Q := if fless x 0 then (- x)%Q else x.

(** Truncation towards zero. *)
Definition Qtrunc (x : Q) : Z :=
  if fless x 0 then Qceiling x else Qfloor x.

(** [std::round] and [roundf]: to the nearest integer, halfway cases
    away from zero. *)
Definition round_half_away (x : Q) : Z :=
  if fless x 0 then Qceiling (x - (1 # 2)) else Qfloor (x + (1 # 2)).

Definition std_round (x : Q) : Q := inject_Z (round_half_away x).
Definition roundf (x : float) : float := inject_Z (round_half_away x).

(** To the nearest integer, a halfway case to the even neighbour. *)
Definition round_half_even (x : Q) : Z :=
  let f := Qfloor x in
  let r := (x - inject_Z f)%Q in
  if fless r (1 # 2) then f
  else if fless (1 # 2) r then f + 1
  else if Z.even f then f else f + 1.

(** Modelled from the spec: [RoundHalfToEven] is called by
    [GetQuantParams] and is not defined in the files at hand; the
    specification says the zero-point is "rounded half-to-even". *)
Definition RoundHalfToEven (x : float) : float :=
  inject_Z (round_half_even x).

(** [static_cast<float>] of an integer: the nearest value with a 24-bit
    significand, a halfway case to the even significand.  Integers below
    [2^24] in magnitude are converted exactly. *)
Definition to_float (z : Z) : float :=
  let a := Z.abs z in
  if a <? 2 ^ 24 then inject_Z z
  else
    let e := Z.log2 a - 23 in
    let m := a / 2 ^ e in
    let r := a mod 2 ^ e in
    let half := 2 ^ (e - 1) in
    let m' := if r <? half then m
              else if half <? r then m + 1
              else if Z.even m then m else m + 1 in
    inject_Z (Z.sgn z * m' * 2 ^ e).

(** Two's complement wrap-around of 32-bit signed arithmetic. *)
Definition INT32_MIN : Z := - 2 ^ 31.
Definition INT32_MAX : Z := 2 ^ 31 - 1.
Definition wrap32 (z : Z) : Z := (z + 2 ^ 31) mod 2 ^ 32 - 2 ^ 31.
Definition add32 (a b : Z) : Z := wrap32 (a + b).
Definition sub32 (a b : Z) : Z := wrap32 (a - b).

(** Conversion of an [int32_t] to [size_t] (64 bits). *)
Definition to_size_t (z : Z) : Z := z mod 2 ^ 64.

(** What a floating-to-integer conversion yields when the value does
    not fit the target type. *)
Class Platform := { indefinite : option Q -> Z }.

(** On x86-64 the SSE conversions yield the "integer indefinite"
    pattern [0x80000000]. *)
Definition x86_64 : Platform := {| indefinite := fun _ => - 2 ^ 31 |}.

Section Conversions.
Context `{Platform}.

(** A value of an integer type with range [[lo, hi]] taken from the
    platform. *)
Definition reduce (lo hi z : Z) : Z := lo + (z - lo) mod (hi - lo + 1).

(** [static_cast] of a floating value ([None]: not finite) to the
    integer type of range [[lo, hi]]. *)
Definition float_to_int (lo hi : Z) (x : option Q) : Z :=
  match x with
  | Some q =>
      let t := Qtrunc q in
      if (lo <=? t) && (t <=? hi) then t
      else reduce lo hi (indefinite x)
  | None => reduce lo hi (indefinite x)
  end.

Definition to_int32 (x : Q) : Z := float_to_int INT32_MIN INT32_MAX (Some x).
Definition to_uint8 (x : Q) : Z := float_to_int 0 255 (Some x).
End Conversions.

End Num.
Import Num.

(** ** qnn_utils.cc *)

Module QnnUtils.

(** The data types of the QNN SDK that the file names. *)
Inductive Qnn_DataType_t : Type :=
| QNN_DATATYPE_INT_8 | QNN_DATATYPE_INT_16 | QNN_DATATYPE_INT_32
| QNN_DATATYPE_INT_64
| QNN_DATATYPE_UINT_8 | QNN_DATATYPE_UINT_16 | QNN_DATATYPE_UINT_32
| QNN_DATATYPE_UINT_64
| QNN_DATATYPE_FLOAT_16 | QNN_DATATYPE_FLOAT_32
| QNN_DATATYPE_SFIXED_POINT_4 | QNN_DATATYPE_SFIXED_POINT_8
| QNN_DATATYPE_SFIXED_POINT_16 | QNN_DATATYPE_SFIXED_POINT_32
| QNN_DATATYPE_UFIXED_POINT_4 | QNN_DATATYPE_UFIXED_POINT_8
| QNN_DATATYPE_UFIXED_POINT_16 | QNN_DATATYPE_UFIXED_POINT_32
| QNN_DATATYPE_BOOL_8.

(** [Status]: [OK] with the values of the output parameters, or a
    reported error with its message. *)
Inductive Status (A : Type) : Type :=
| OK (a : A)
| Failed (msg : string).
Arguments OK {A} a.
Arguments Failed {A} msg.

(** [ORT_RETURN_IF_ERROR]. *)
Definition and_then {A B} (s : Status A) (k : A -> Status B) : Status B :=
  match s with
  | OK a => k a
  | Failed msg => Failed msg
  end.

(** The element types [Saturate] is instantiated at. *)
Class Less (T : Type) := less : T -> T -> bool.
#[export] Instance Less_int : Less Z := Z.ltb.
#[export] Instance Less_float : Less Q := fless.

Definition CheckMinMax (rmin rmax : float) : float * float :=
  (* Ensure a minimum range of 0.0001 (required by QNN) *)
  let rmax := std_max rmax (rmin + (1 # 10000))%Q in
  (* Both QNN and ORT require the range to include 0.0f *)
  let rmin := std_min rmin 0 in
  let rmax := std_max rmax 0 in
  (rmin, rmax).

(** [GetQminQmax<T>]; [cast] is [static_cast<T>] from the integer
    limits. *)
Definition GetQminQmax {T : Type} (cast : Z -> T)
    (qnn_data_type : Qnn_DataType_t) : Status (T * T) :=
  match qnn_data_type with
  | QNN_DATATYPE_SFIXED_POINT_8 => OK (cast (-128), cast 127)
  | QNN_DATATYPE_UFIXED_POINT_8 => OK (cast 0, cast 255)
  | QNN_DATATYPE_SFIXED_POINT_16 => OK (cast (-32768), cast 32767)
  | QNN_DATATYPE_UFIXED_POINT_16 => OK (cast 0, cast 65535)
  | QNN_DATATYPE_SFIXED_POINT_32 => OK (cast (-2147483648), cast 2147483647)
  | _ => Failed "Qnn Data Type: %d not supported yet."
  end.

(** The fixed-point types of the SDK by their names: signedness and
    width. *)
Definition fixed_point_format (qnn_data_type : Qnn_DataType_t)
    : option (bool * Z) :=
  match qnn_data_type with
  | QNN_DATATYPE_SFIXED_POINT_4 => Some (true, 4)
  | QNN_DATATYPE_SFIXED_POINT_8 => Some (true, 8)
  | QNN_DATATYPE_SFIXED_POINT_16 => Some (true, 16)
  | QNN_DATATYPE_SFIXED_POINT_32 => Some (true, 32)
  | QNN_DATATYPE_UFIXED_POINT_4 => Some (false, 4)
  | QNN_DATATYPE_UFIXED_POINT_8 => Some (false, 8)
  | QNN_DATATYPE_UFIXED_POINT_16 => Some (false, 16)
  | QNN_DATATYPE_UFIXED_POINT_32 => Some (false, 32)
  | _ => None
  end.

(** [std::numeric_limits<I>::min()] and [max()] of the integer type of
    that signedness and width. *)
Definition int_limits (signed : bool) (bits : Z) : Z * Z :=
  if signed then (- 2 ^ (bits - 1), 2 ^ (bits - 1) - 1) else (0, 2 ^ bits - 1).

(** The types [GetQminQmax] has a branch for. *)
Definition in_table (qnn_data_type : Qnn_DataType_t) : bool :=
  match qnn_data_type with
  | QNN_DATATYPE_SFIXED_POINT_8 | QNN_DATATYPE_UFIXED_POINT_8
  | QNN_DATATYPE_SFIXED_POINT_16 | QNN_DATATYPE_UFIXED_POINT_16
  | QNN_DATATYPE_SFIXED_POINT_32 => true
  | _ => false
  end.

Definition Saturate {T : Type} `{Less T} (qmax qmin quant_value : T) : T :=
  if less qmax quant_value then qmax
  else if less quant_value qmin then qmin
  else quant_value.

(** The range the parameters are derived from: the range of
    [CheckMinMax], in symmetric mode collapsed to [[-abs_max, abs_max]]. *)
Definition quant_range (rmin rmax : float) (symmetric : bool) : float * float :=
  let '(rmin, rmax) := CheckMinMax rmin rmax in
  if symmetric then
    let abs_max := std_max (fabsf rmax) (fabsf rmin) in ((- abs_max)%Q, abs_max)
  else (rmin, rmax).

(** The zero-point before negation, in the words of the specification:
    [round((rmin+rmax)/2)] or [qmin - rmin/scale], rounded half-to-even,
    then saturated into [[qmin, qmax]]. *)
Definition spec_zero_point (rmin rmax scale qmin qmax : float)
    (symmetric : bool) : float :=
  let initial :=
    if symmetric then std_round ((rmin + rmax) / 2)
    else (qmin - rmin / scale)%Q in
  Saturate qmax qmin (RoundHalfToEven initial).

Section WithPlatform.
Context `{Platform}.

(** Returns the outputs [(scale, zero_point)]. *)
Definition GetQuantParams (rmin rmax : float)
    (qnn_data_type : Qnn_DataType_t) (symmetric : bool)
    : Status (float * Z) :=
  let '(rmin, rmax) := CheckMinMax rmin rmax in
  let '(rmin, rmax) :=
    if symmetric then
      let abs_max := std_max (fabsf rmax) (fabsf rmin) in
      ((- abs_max)%Q, abs_max)
    else (rmin, rmax) in
  and_then (GetQminQmax to_float qnn_data_type) (fun '(qmin, qmax) =>
    let scale := ((rmax - rmin) / (qmax - qmin))%Q in
    let initial_zero_point :=
      if symmetric then (std_round (rmin + rmax) / 2)%Q
      else (qmin - rmin / scale)%Q in
    let zero_point :=
      to_int32 (RoundHalfToEven (Saturate qmax qmin initial_zero_point)) in
    (* To match QNN quantization definition *)
    let zero_point := sub32 0 zero_point in
    OK (scale, zero_point)).

Definition Dequantize (offset : Z) (scale : float) (quant_value : double)
    : double :=
  let offset_d := inject_Z offset in
  let scale_d := scale in
  ((quant_value + offset_d) * scale_d)%Q.

(** The quotient of two doubles; [None] when it is not finite. *)
Definition ddiv (a b : Q) : option Q :=
  if Qeq_bool b 0 then None else Some (a / b)%Q.

(** Returns the output [quant_value]. *)
Definition Quantize (double_value : double) (scale : float)
    (zero_point : Z) (qnn_data_type : Qnn_DataType_t) : Status Z :=
  and_then (GetQminQmax id qnn_data_type) (fun '(qmin, qmax) =>
    let rounded :=
      option_map (fun q => std_round (q - inject_Z zero_point))
                 (ddiv double_value scale) in
    OK (Saturate qmax qmin (float_to_int INT32_MIN INT32_MAX rounded))).
End WithPlatform.

End QnnUtils.
Import QnnUtils.

(** ** blockwise_quant_block.h, the 4-bit block *)

Module Blockwise4.

Inductive fault : Type := OutOfBounds | DivByZero.

(** The outcome of running a member function: the final value of what
    it writes, or the fault that stops it. *)
Inductive result (A : Type) : Type :=
| Done (a : A)
| Fault (f : fault).
Arguments Done {A} a.
Arguments Fault {A} f.

Definition bind {A B} (r : result A) (k : A -> result B) : result B :=
  match r with
  | Done a => k a
  | Fault f => Fault f
  end.

Notation "'do' x <- e ; k" := (bind e (fun x => k))
  (at level 10, x name, e at level 100, k at level 200,
   format "'[v' 'do'  x  <-  e ; '/' k ']'").

(** [a[i]] read and written, bounds checked. *)
Definition load {A} (a : list A) (i : Z) : result A :=
  if i <? 0 then Fault OutOfBounds
  else match a !! Z.to_nat i with
       | Some x => Done x
       | None => Fault OutOfBounds
       end.

Definition store {A} (a : list A) (i : Z) (x : A) : result (list A) :=
  if (0 <=? i) && (i <? Z.of_nat (length a))
  then Done (<[Z.to_nat i := x]> a)
  else Fault OutOfBounds.

(** A floating division by a run-time divisor. *)
Definition checked_div (a b : float) : result float :=
  if Qeq_bool b 0 then Fault DivByZero else Done (a / b)%Q.

(** The values [k] takes in [for (k = lo; k < hi; k += step)]. *)
Definition for_range (lo hi step : Z) : list Z :=
  map (fun n => lo + step * Z.of_nat n)
      (seq 0 (Z.to_nat ((hi - lo + step - 1) / step))).

(** A loop whose body may fault. *)
Fixpoint for_each {S} (ks : list Z) (body : Z -> S -> result S) (s : S)
    : result S :=
  match ks with
  | [] => Done s
  | k :: ks' => do s' <- body k s; for_each ks' body s'
  end.

(** [scale ? 1.0f / scale : 0.0f] *)
Definition reciprocal (scale : float) : result float :=
  if Qeq_bool scale 0 then Done 0%Q else checked_div 1%Q scale.

Section Block.
Context `{Platform}.

(** Template parameter; [static_assert(block_size % 8 == 0)]. *)
Variable block_size : Z.

(** [uint8_t main_blob[block_size / 2]]: a list of that many bytes. *)
Definition blob : Type := list Z.

(** [dequant(dst, scale, zp, k_idx, K)]; [dst] points at element
    [dst] of the array [mem], which is returned as written. *)
Definition dequant_zp (main_blob : blob) (mem : list float) (dst : Z)
    (scale : float) (zp : Z) (k_idx K : Z) : result (list float) :=
  for_each (for_range 0 block_size 2) (fun i mem =>
    let zp_t := inject_Z zp in
    do mem <- (if add32 k_idx i <? K then
                 do b <- load main_blob (Z.quot i 2);
                 let x0 := inject_Z (Z.land b 15) in
                 store mem (dst + i) (scale * (x0 - zp_t))%Q
               else Done mem);
    if add32 (add32 k_idx i) 1 <? K then
      do b <- load main_blob (Z.quot i 2);
      let x1 := inject_Z (Z.shiftr b 4) in
      store mem (dst + i + 1) (scale * (x1 - zp_t))%Q
    else Done mem) mem.

(** [dequant(dst, scale, k_idx, K)] *)
Definition dequant (main_blob : blob) (mem : list float) (dst : Z)
    (scale : float) (k_idx K : Z) : result (list float) :=
  let zp := 8 in
  dequant_zp main_blob mem dst scale zp k_idx K.

(** [std::min(15.0f, std::max(0.0f, x))] converted to [uint8_t]. *)
Definition clamp_u4 (x : float) : Z :=
  to_uint8 (std_min 15 (std_max 0 x)).

(** [vi0 | (vi1 << 4)] stored into a byte. *)
Definition pack (vi0 vi1 : Z) : Z := Z.lor vi0 (Z.shiftl vi1 4) mod 256.

(** [quant(src, scale_block, zp, k_idx, K, N)]; returns the outputs
    [scale_block] and [zp] and the written [main_blob]. *)
Definition quant_zp (main_blob : blob) (src : Z -> float) (k_idx K N : Z)
    : result (float * Z * blob) :=
  let min := src 0 in
  let max := src 0 in
  let klen := Z.min block_size (sub32 K k_idx) in
  let '(min, max) :=
    fold_left (fun '(min, max) kk =>
                 let v := src (N * kk) in
                 let min := if fless v min then v else min in
                 let max := if fless max v then v else max in
                 (min, max))
              (for_range 0 klen 1) (min, max) in
  let min := std_min min 0 in
  let max := std_max max 0 in
  let scale := ((max - min) / 15)%Q in
  let scale_block := scale in
  do reciprocal_scale <- reciprocal scale;
  do zero_point_fp <-
    (if negb (Qeq_bool scale 0) then
       do q <- checked_div min scale; Done (0 - q)%Q
     else Done min);
  (* Handle any clamping *)
  let zp :=
    if fless zero_point_fp 0 then 0
    else if fless 15 zero_point_fp then 15
    else to_uint8 (roundf zero_point_fp) in
  do main_blob <-
    for_each (for_range 0 (to_size_t klen) 2) (fun kk main_blob =>
      let v0 := src (N * kk) in
      let vi0 := clamp_u4 (roundf (v0 * reciprocal_scale + inject_Z zp)) in
      let v1 := if kk + 1 <? to_size_t klen then src (N * (kk + 1)) else 0%Q in
      let vi1 := clamp_u4 (roundf (v1 * reciprocal_scale + inject_Z zp)) in
      store main_blob (Z.quot kk 2) (pack vi0 vi1)) main_blob;
  Done (scale_block, zp, main_blob).

(** [quant(src, scale_block, k_idx, K, N)]; returns the output
    [scale_block] and the written [main_blob]. *)
Definition quant (main_blob : blob) (src : Z -> float) (k_idx K N : Z)
    : result (float * blob) :=
  let amax := 0%Q in
  let max := 0%Q in
  let klen := Z.min block_size (sub32 K k_idx) in
  let '(amax, max) :=
    fold_left (fun '(amax, max) kk =>
                 let v := src (N * kk) in
                 if fless amax (fabsf v) then (fabsf v, v) else (amax, max))
              (for_range 0 klen 1) (amax, max) in
  let scale := (max / - (8))%Q in
  let scale_block := scale in
  do reciprocal_scale <- reciprocal scale;
  do main_blob <-
    for_each (for_range 0 (to_size_t klen) 2) (fun kk main_blob =>
      let v0 := (src (N * kk)%Z * reciprocal_scale)%Q in
      let vi0 := clamp_u4 (v0 + (17 # 2)) in
      let v1 := if kk + 1 <? to_size_t klen
                then (src (N * (kk + 1))%Z * reciprocal_scale)%Q else 0%Q in
      let vi1 := clamp_u4 (v1 + (17 # 2)) in
      store main_blob (Z.quot kk 2) (pack vi0 vi1)) main_blob;
  Done (scale_block, main_blob).
End Block.

(** Element [i] of a packed block: the low nibble of byte [i / 2] for
    even [i], the high nibble for odd [i]. *)
Definition unpack (main_blob : list Z) (i : Z) : Z :=
  let b := default 0 (main_blob !! Z.to_nat (Z.quot i 2)) in
  if Z.even i then Z.land b 15 else Z.shiftr b 4.

(** A source array given by its elements. *)
Definition src_of_list (l : list float) : Z -> float :=
  fun i => nth (Z.to_nat i) l 0%Q.

(** Whether iteration [i] of the loop of [dequant] writes element [j]
    of the array. *)
Definition dequant_touch (dst k_idx K : Z) (i : Z) (j : nat) : bool :=
  ((Z.of_nat j =? dst + i) && (k_idx + i <? K))
  || ((Z.of_nat j =? dst + i + 1) && (k_idx + i + 1 <? K)).

(** Whether [dequant] writes element [j] of the array: [j] is [dst + i]
    for an [i] of the block with [k_idx + i < K]. *)
Definition dequant_written (block_size dst k_idx K : Z) (j : nat) : bool :=
  (dst <=? Z.of_nat j) && (Z.of_nat j <? dst + block_size)
  && (k_idx + (Z.of_nat j - dst) <? K).

(** The value [dequant] writes at element [j] of the array. *)
Definition dequant_value (main_blob : list Z) (dst : Z) (scale : float)
    (zp : Z) (j : nat) : float :=
  (scale * (inject_Z (unpack main_blob (Z.of_nat j - dst)) - inject_Z zp))%Q.

(** What a call of [quant] or [dequant] on a block takes for granted:
    the [static_assert] on [block_size], the size of [main_blob], and a
    first row [k_idx] of the block inside the [K] rows, all within
    [int32_t]. *)
Definition valid_block (block_size : Z) (main_blob : list Z) (k_idx K : Z)
    : Prop :=
  0 < block_size /\ block_size mod 8 = 0 /\
  Z.of_nat (length main_blob) = block_size / 2 /\
  0 <= k_idx /\ k_idx < K /\ K <= INT32_MAX /\
  k_idx + block_size <= INT32_MAX.

End Blockwise4.
Import Blockwise4.

(** ** qnn_utils.cc and qnn_utils.h: element types, permutations,
       attributes *)

Module QnnTypes.

(** A call that returns a value or throws ([ORT_ENFORCE], [narrow]). *)
Inductive outcome (A : Type) : Type :=
| Returns (a : A)
| Throws (what : string).
Arguments Returns {A} a.
Arguments Throws {A} what.

(** The values of [ONNX_NAMESPACE::TensorProto_DataType] that the file
    names; [TensorProto_DataType_other] is any other value of the
    [int32_t] that carries an element type. *)
Inductive TensorProto_DataType : Type :=
| TensorProto_DataType_UNDEFINED
| TensorProto_DataType_INT4 | TensorProto_DataType_UINT4
| TensorProto_DataType_INT8 | TensorProto_DataType_UINT8
| TensorProto_DataType_INT16 | TensorProto_DataType_UINT16
| TensorProto_DataType_INT32 | TensorProto_DataType_UINT32
| TensorProto_DataType_INT64 | TensorProto_DataType_UINT64
| TensorProto_DataType_FLOAT16 | TensorProto_DataType_FLOAT
| TensorProto_DataType_DOUBLE | TensorProto_DataType_BOOL
| TensorProto_DataType_other.

(** The sizes that the implementation and declarations outside the file
    fix: [sizeof(bool)], [sizeof(Int4x2)] and [sizeof(UInt4x2)]. *)
Class Layout := {
  sizeof_bool : Z;
  sizeof_Int4x2 : Z;
  sizeof_UInt4x2 : Z
}.

(** [GetElementSizeByType(const Qnn_DataType_t&)] *)
Definition GetElementSizeByType (data_type : Qnn_DataType_t) : outcome Z :=
  match data_type with
  | QNN_DATATYPE_INT_8 => Returns 1
  | QNN_DATATYPE_INT_16 => Returns 2
  | QNN_DATATYPE_INT_32 => Returns 4
  | QNN_DATATYPE_INT_64 => Returns 8
  | QNN_DATATYPE_UINT_8 => Returns 1
  | QNN_DATATYPE_UINT_16 => Returns 2
  | QNN_DATATYPE_UINT_32 => Returns 4
  | QNN_DATATYPE_UINT_64 => Returns 8
  | QNN_DATATYPE_FLOAT_16 => Returns 2
  | QNN_DATATYPE_FLOAT_32 => Returns 4
  | QNN_DATATYPE_BOOL_8 => Returns 1
  | QNN_DATATYPE_SFIXED_POINT_8 => Returns 1
  | QNN_DATATYPE_SFIXED_POINT_16 => Returns 2
  | QNN_DATATYPE_SFIXED_POINT_32 => Returns 4
  | QNN_DATATYPE_UFIXED_POINT_8 => Returns 1
  | QNN_DATATYPE_UFIXED_POINT_16 => Returns 2
  | QNN_DATATYPE_UFIXED_POINT_32 => Returns 4
  | _ => Throws "Unknown QNN data type"
  end.

(** [GetElementSizeByType(ONNX_NAMESPACE::TensorProto_DataType)] *)
Definition GetElementSizeByType_onnx `{Layout}
    (onnx_type : TensorProto_DataType) : Z :=
  match onnx_type with
  | TensorProto_DataType_INT4 => sizeof_Int4x2
  | TensorProto_DataType_UINT4 => sizeof_UInt4x2
  | TensorProto_DataType_INT8 => 1
  | TensorProto_DataType_UINT8 => 1
  | TensorProto_DataType_INT16 => 2
  | TensorProto_DataType_UINT16 => 2
  | TensorProto_DataType_INT32 => 4
  | TensorProto_DataType_UINT32 => 4
  | TensorProto_DataType_INT64 => 8
  | TensorProto_DataType_UINT64 => 8
  | TensorProto_DataType_FLOAT16 => 2
  | TensorProto_DataType_FLOAT => 4
  | TensorProto_DataType_DOUBLE => 8
  | TensorProto_DataType_BOOL => sizeof_bool
  | _ => 0
  end.

(** The two tables of [OnnxDataTypeToQnnDataType]. *)
Definition onnx_to_qnn_data_type (onnx_data_type : TensorProto_DataType)
    : option Qnn_DataType_t :=
  match onnx_data_type with
  | TensorProto_DataType_INT8 => Some QNN_DATATYPE_INT_8
  | TensorProto_DataType_INT16 => Some QNN_DATATYPE_INT_16
  | TensorProto_DataType_INT32 => Some QNN_DATATYPE_INT_32
  | TensorProto_DataType_INT64 => Some QNN_DATATYPE_INT_64
  | TensorProto_DataType_UINT8 => Some QNN_DATATYPE_UINT_8
  | TensorProto_DataType_UINT16 => Some QNN_DATATYPE_UINT_16
  | TensorProto_DataType_UINT32 => Some QNN_DATATYPE_UINT_32
  | TensorProto_DataType_UINT64 => Some QNN_DATATYPE_UINT_64
  | TensorProto_DataType_FLOAT16 => Some QNN_DATATYPE_FLOAT_16
  | TensorProto_DataType_FLOAT => Some QNN_DATATYPE_FLOAT_32
  | TensorProto_DataType_BOOL => Some QNN_DATATYPE_BOOL_8
  | _ => None
  end.

Definition onnx_to_qnn_data_type_quantized
    (onnx_data_type : TensorProto_DataType) : option Qnn_DataType_t :=
  match onnx_data_type with
  | TensorProto_DataType_INT4 => Some QNN_DATATYPE_SFIXED_POINT_8
  | TensorProto_DataType_INT8 => Some QNN_DATATYPE_SFIXED_POINT_8
  | TensorProto_DataType_INT16 => Some QNN_DATATYPE_SFIXED_POINT_16
  | TensorProto_DataType_INT32 => Some QNN_DATATYPE_SFIXED_POINT_32
  | TensorProto_DataType_INT64 => Some QNN_DATATYPE_INT_64
  | TensorProto_DataType_UINT4 => Some QNN_DATATYPE_UFIXED_POINT_8
  | TensorProto_DataType_UINT8 => Some QNN_DATATYPE_UFIXED_POINT_8
  | TensorProto_DataType_UINT16 => Some QNN_DATATYPE_UFIXED_POINT_16
  | TensorProto_DataType_UINT32 => Some QNN_DATATYPE_UFIXED_POINT_32
  | TensorProto_DataType_UINT64 => Some QNN_DATATYPE_UINT_64
  | TensorProto_DataType_FLOAT16 => Some QNN_DATATYPE_FLOAT_16
  | TensorProto_DataType_FLOAT => Some QNN_DATATYPE_FLOAT_32
  | TensorProto_DataType_BOOL => Some QNN_DATATYPE_BOOL_8
  | _ => None
  end.

(** [OnnxDataTypeToQnnDataType]: [Some] of the output [qnn_data_type]
    when it returns [true], [None] when it returns [false]. *)
Definition OnnxDataTypeToQnnDataType (onnx_data_type : TensorProto_DataType)
    (is_quantized : bool) : option Qnn_DataType_t :=
  let do_type_mapping :=
    fun (mapping_table : TensorProto_DataType -> option Qnn_DataType_t)
        onnx_data_type => mapping_table onnx_data_type in
  if is_quantized
  then do_type_mapping onnx_to_qnn_data_type_quantized onnx_data_type
  else do_type_mapping onnx_to_qnn_data_type onnx_data_type.

(** What [GetQnnDataType] reads of a [TypeProto]. *)
Record TypeProto : Type := {
  has_elem_type : bool;
  elem_type : TensorProto_DataType
}.

(** [GetQnnDataType]; [None] is the null pointer.  Returns the output
    [tensor_data_type]. *)
Definition GetQnnDataType (is_quantized_tensor : bool)
    (type_proto : option TypeProto) : Status Qnn_DataType_t :=
  match type_proto with
  | Some tp =>
      if has_elem_type tp then
        let onnx_data_type := elem_type tp in
        match OnnxDataTypeToQnnDataType onnx_data_type is_quantized_tensor with
        | Some tensor_data_type => OK tensor_data_type
        | None => Failed "Failed to map Onnx data type to Qnn data type!"
        end
      else Failed "The tensor doesn't have elem_type."
  | None => Failed "The tensor doesn't have elem_type."
  end.

End QnnTypes.
Import QnnTypes.

Module QnnShapes.

(** A loop whose body may return an error [Status]: the loop stops at
    the first error, with what has been written until then. *)
Fixpoint for_each_status {S} (ks : list Z)
    (body : Z -> S -> result (S * Status unit)) (s : S)
    : result (S * Status unit) :=
  match ks with
  | [] => Done (s, OK tt)
  | k :: ks' =>
      do r <- body k s;
      match snd r with
      | OK _ => for_each_status ks' body (fst r)
      | Failed msg => Done (fst r, Failed msg)
      end
  end.

Section IntType.

(** The template parameter [IntType], an integral type of at most 64
    bits, by its signedness and width. *)
Variables (signed : bool) (bits : Z).

(** [static_cast<IntType>] of an index. *)
Definition to_IntType (z : Z) : Z :=
  let '(lo, hi) := int_limits signed bits in reduce lo hi z.

(** [InvertPerm(perm, perm_inv)]: the span [perm_inv] as written and the
    returned [Status]; accesses to the spans are checked. *)
Definition InvertPerm (perm perm_inv : list Z)
    : result (list Z * Status unit) :=
  let rank := Z.of_nat (length perm) in
  if negb (Z.of_nat (length perm_inv) =? rank)
  then Done (perm_inv, Failed "perm.size() != perm_inv.size()")
  else
    for_each_status (for_range 0 rank 1) (fun i perm_inv =>
      do p <- load perm i;
      let j := to_size_t p in
      if negb (j <? rank)
      then Done (perm_inv, Failed "perm element out of range [0, rank - 1]")
      else
        do perm_inv <- store perm_inv j (to_IntType i);
        Done (perm_inv, OK tt)) perm_inv.
End IntType.

(** [PermuteShape(input_shape, perm, output_shape)]: the span
    [output_shape] as written and the returned [Status]; accesses to the
    spans are checked. *)
Definition PermuteShape (input_shape perm output_shape : list Z)
    : result (list Z * Status unit) :=
  let rank := Z.of_nat (length input_shape) in
  if negb ((rank =? Z.of_nat (length perm))
           && (rank =? Z.of_nat (length output_shape)))
  then Done (output_shape,
             Failed "PermuteShape(): expect all arguments to have the same rank.")
  else
    do output_shape <-
      for_each (for_range 0 rank 1) (fun i output_shape =>
        do pi <- load perm i;
        let p := to_size_t pi in
        do x <- load input_shape p;
        store output_shape i x) output_shape;
    Done (output_shape, OK tt).

(** [ArrayHasString(strings, str)] *)
Fixpoint ArrayHasString (strings : list string) (str : string) : bool :=
  match strings with
  | [] => false
  | s :: strings' =>
      if String.eqb s str then true else ArrayHasString strings' str
  end.

End QnnShapes.
Import QnnShapes.

(** ** qnn_utils.cc: [NodeAttrHelper] *)

Module NodeAttrHelper.

(** What the helper reads of an [ONNX_NAMESPACE::AttributeProto]: the
    accessors [f()], [i()], [s()], [floats()], [ints()] and [strings()].
    [i()] and the elements of [ints()] are [int64_t]. *)
Record AttributeProto : Type := {
  f : float;
  i : Z;
  s : string;
  floats : list float;
  ints : list Z;
  strings : list string
}.

(** [NodeAttributes], the map from the names of the attributes. *)
Definition NodeAttributes : Type := gmap string AttributeProto.

(** [narrow<T>(v)] for the integer type [T] of range [[lo, hi]]: [v]
    when [T] holds it; otherwise no value is returned. *)
Definition narrow (lo hi v : Z) : outcome Z :=
  if (lo <=? v) && (v <=? hi) then Returns v else Throws "narrowing_error".

(** [std::transform] of the [ints()] with [narrow<T>], appending the
    results in order. *)
Fixpoint narrow_all (lo hi : Z) (vals : list Z) : outcome (list Z) :=
  match vals with
  | [] => Returns []
  | val :: vals' =>
      match narrow lo hi val with
      | Returns x =>
          match narrow_all lo hi vals' with
          | Returns v => Returns (x :: v)
          | Throws what => Throws what
          end
      | Throws what => Throws what
      end
  end.

Definition UINT32_MAX : Z := 2 ^ 32 - 1.

Section Members.

Variable node_attributes_ : NodeAttributes.

(** [Get] with a default of type [float], [int32_t], [uint32_t],
    [int64_t] and [std::string]. *)
Definition Get_float (key : string) (def_val : float) : float :=
  match node_attributes_ !! key with
  | Some entry => f entry
  | None => def_val
  end.

Definition Get_int32 (key : string) (def_val : Z) : outcome Z :=
  match node_attributes_ !! key with
  | Some entry => narrow INT32_MIN INT32_MAX (i entry)
  | None => Returns def_val
  end.

Definition Get_uint32 (key : string) (def_val : Z) : outcome Z :=
  match node_attributes_ !! key with
  | Some entry => narrow 0 UINT32_MAX (i entry)
  | None => Returns def_val
  end.

Definition Get_int64 (key : string) (def_val : Z) : Z :=
  match node_attributes_ !! key with
  | Some entry => i entry
  | None => def_val
  end.

Definition Get_string (key : string) (def_val : string) : string :=
  match node_attributes_ !! key with
  | Some entry => s entry
  | None => def_val
  end.

(** [Get] with a default that is a vector. *)
Definition Get_int32s (key : string) (def_val : list Z) : outcome (list Z) :=
  match node_attributes_ !! key with
  | Some entry => let attr := entry in narrow_all INT32_MIN INT32_MAX (ints attr)
  | None => Returns def_val
  end.

Definition Get_uint32s (key : string) (def_val : list Z) : outcome (list Z) :=
  match node_attributes_ !! key with
  | Some entry => let attr := entry in narrow_all 0 UINT32_MAX (ints attr)
  | None => Returns def_val
  end.

Definition Get_int64s (key : string) (def_val : list Z) : list Z :=
  match node_attributes_ !! key with
  | Some entry => let values := ints entry in values
  | None => def_val
  end.

Definition Get_strings (key : string) (def_val : list string) : list string :=
  match node_attributes_ !! key with
  | Some entry => let values := strings entry in values
  | None => def_val
  end.

Definition Get_floats (key : string) (def_val : list float) : list float :=
  match node_attributes_ !! key with
  | Some entry => let values := floats entry in values
  | None => def_val
  end.

(** [Get] without default. *)
Definition GetFloat (key : string) : option float :=
  match node_attributes_ !! key with
  | Some entry => Some (f entry)
  | None => None
  end.

Definition GetInt64 (key : string) : option Z :=
  match node_attributes_ !! key with
  | Some entry => Some (i entry)
  | None => None
  end.

Definition GetFloats (key : string) : option (list float) :=
  match node_attributes_ !! key with
  | Some entry => let values := floats entry in Some values
  | None => None
  end.

Definition GetInt64s (key : string) : option (list Z) :=
  match node_attributes_ !! key with
  | Some entry => let values := ints entry in Some values
  | None => None
  end.

Definition GetString (key : string) : option string :=
  match node_attributes_ !! key with
  | Some entry => Some (s entry)
  | None => None
  end.

Definition HasAttr (key : string) : bool :=
  match node_attributes_ !! key with
  | Some _ => true
  | None => false
  end.
End Members.

End NodeAttrHelper.

(** * Properties *)

(** ** Facts about the numeric operations *)

Section NumFacts.
Local Open Scope Q_scope.

Lemma fless_reflect (a b : Q) : reflect (a < b) (fless a b).
Proof.
  unfold fless. destruct (a ?= b) eqn:E; constructor.
  - apply Qeq_alt in E. intros Hlt. lra.
  - now apply Qlt_alt.
  - apply Qgt_alt in E. intros Hlt. lra.
Qed.

Lemma std_max_spec a b :
  (a < b /\ std_max a b = b) \/ (b <= a /\ std_max a b = a).
Proof. unfold std_max. destruct (fless_reflect a b); [left | right]; split; auto; lra. Qed.

Lemma std_min_spec a b :
  (b < a /\ std_min a b = b) \/ (a <= b /\ std_min a b = a).
Proof. unfold std_min. destruct (fless_reflect b a); [left | right]; split; auto; lra. Qed.

Lemma fabsf_spec x : (x < 0 /\ fabsf x = - x) \/ (0 <= x /\ fabsf x = x).
Proof. unfold fabsf. destruct (fless_reflect x 0); [left | right]; split; auto; lra. Qed.

Lemma Qeq_bool_reflect (a b : Q) : reflect (a == b) (Qeq_bool a b).
Proof.
  destruct (Qeq_bool a b) eqn:E; constructor.
  - now apply Qeq_bool_iff.
  - intro Hab. apply Qeq_bool_iff in Hab. congruence.
Qed.

Lemma inject_Z_succ a : inject_Z (a + 1) == inject_Z a + 1.
Proof. rewrite inject_Z_plus. reflexivity. Qed.

(** An integer strictly within one of a rational bound. *)
Lemma Z_lt_from_Q (a b : Z) (x : Q) :
  inject_Z a < x + 1 -> x <= inject_Z b -> (a <= b)%Z.
Proof.
  intros H1 H2. assert (inject_Z a < inject_Z (b + 1)) as H3.
  { rewrite inject_Z_succ. lra. }
  rewrite <- Zlt_Qlt in H3. lia.
Qed.

Lemma Qfloor_bounds x : inject_Z (Qfloor x) <= x < inject_Z (Qfloor x) + 1.
Proof.
  split; [apply Qfloor_le |].
  rewrite <- inject_Z_succ. apply Qlt_floor.
Qed.

Lemma Qceiling_bounds x : inject_Z (Qceiling x) - 1 < x <= inject_Z (Qceiling x).
Proof.
  split; [| apply Qle_ceiling].
  pose proof (Qceiling_lt x) as Hc.
  unfold Z.sub in Hc. rewrite inject_Z_plus in Hc. exact Hc.
Qed.

Lemma Qtrunc_Z n : Qtrunc (inject_Z n) = n.
Proof. unfold Qtrunc. destruct (fless _ _); [apply Qceiling_Z | apply Qfloor_Z]. Qed.

Lemma Qtrunc_nonneg x : 0 <= x -> Qtrunc x = Qfloor x.
Proof. intros Hx. unfold Qtrunc. destruct (fless_reflect x 0); [lra | reflexivity]. Qed.

(** Rounding moves a value by at most one half. *)
Lemma round_half_away_near x :
  x - (1 # 2) <= inject_Z (round_half_away x) <= x + (1 # 2).
Proof.
  unfold round_half_away. destruct (fless_reflect x 0).
  - pose proof (Qceiling_bounds (x - (1 # 2))). lra.
  - pose proof (Qfloor_bounds (x + (1 # 2))). lra.
Qed.

Lemma round_half_even_near x :
  x - (1 # 2) <= inject_Z (round_half_even x) <= x + (1 # 2).
Proof.
  unfold round_half_even. pose proof (Qfloor_bounds x) as [H1 H2].
  destruct (fless_reflect (x - inject_Z (Qfloor x)) (1 # 2)); [lra |].
  destruct (fless_reflect (1 # 2) (x - inject_Z (Qfloor x))).
  - rewrite inject_Z_succ. lra.
  - destruct (Z.even _); [| rewrite inject_Z_succ]; lra.
Qed.

Lemma round_half_away_Z n : round_half_away (inject_Z n) = n.
Proof.
  pose proof (round_half_away_near (inject_Z n)) as [H1 H2].
  assert (round_half_away (inject_Z n) <= n)%Z
    by (apply (Z_lt_from_Q _ _ (inject_Z n)); lra).
  assert (n <= round_half_away (inject_Z n))%Z
    by (apply (Z_lt_from_Q _ _ (inject_Z n - (1 # 2))); lra).
  lia.
Qed.

Lemma round_half_even_Z n : round_half_even (inject_Z n) = n.
Proof.
  pose proof (round_half_even_near (inject_Z n)) as [H1 H2].
  assert (round_half_even (inject_Z n) <= n)%Z
    by (apply (Z_lt_from_Q _ _ (inject_Z n)); lra).
  assert (n <= round_half_even (inject_Z n))%Z
    by (apply (Z_lt_from_Q _ _ (inject_Z n - (1 # 2))); lra).
  lia.
Qed.

(** Rounding does not cross an integer bound. *)
Lemma round_half_even_ge x (z : Z) :
  inject_Z z <= x -> (z <= round_half_even x)%Z.
Proof.
  intros Hx. pose proof (round_half_even_near x) as [H1 H2].
  apply (Z_lt_from_Q _ _ (x - (1 # 2))); lra.
Qed.

Lemma round_half_even_le x (z : Z) :
  x <= inject_Z z -> (round_half_even x <= z)%Z.
Proof.
  intros Hx. pose proof (round_half_even_near x) as [H1 H2].
  apply (Z_lt_from_Q _ _ x); lra.
Qed.

Lemma round_half_away_zero x : x == 0 -> round_half_away x = 0%Z.
Proof.
  intros Hx. pose proof (round_half_away_near x) as [H1 H2].
  assert (round_half_away x <= 0)%Z by (apply (Z_lt_from_Q _ _ x); change (inject_Z 0) with 0; lra).
  assert (0 <= round_half_away x)%Z
    by (apply (Z_lt_from_Q _ _ (x - (1 # 2))); change (inject_Z 0) with 0; lra).
  lia.
Qed.

Lemma wrap32_small z : (INT32_MIN <= z <= INT32_MAX)%Z -> wrap32 z = z.
Proof.
  unfold wrap32, INT32_MIN, INT32_MAX. intros Hz.
  rewrite Z.mod_small; lia.
Qed.

Lemma sub32_neg z : (INT32_MIN < z <= INT32_MAX)%Z -> sub32 0 z = (- z)%Z.
Proof.
  unfold sub32. intros Hz. rewrite wrap32_small; unfold INT32_MIN, INT32_MAX in *; lia.
Qed.

Lemma add32_small a b :
  (INT32_MIN <= a + b <= INT32_MAX)%Z -> add32 a b = (a + b)%Z.
Proof. apply wrap32_small. Qed.

Lemma sub32_small a b :
  (INT32_MIN <= a - b <= INT32_MAX)%Z -> sub32 a b = (a - b)%Z.
Proof. apply wrap32_small. Qed.

Context `{Platform}.

Lemma float_to_int_in_range lo hi x :
  (lo <= Qtrunc x <= hi)%Z -> float_to_int lo hi (Some x) = Qtrunc x.
Proof.
  intros Hx. unfold float_to_int.
  destruct (Z.leb_spec lo (Qtrunc x)), (Z.leb_spec (Qtrunc x) hi); simpl; lia.
Qed.

Lemma to_int32_Z n :
  (INT32_MIN <= n <= INT32_MAX)%Z -> to_int32 (inject_Z n) = n.
Proof.
  intros Hn. unfold to_int32. rewrite float_to_int_in_range; rewrite Qtrunc_Z; auto.
Qed.

Lemma to_uint8_Z n : (0 <= n <= 255)%Z -> to_uint8 (inject_Z n) = n.
Proof.
  intros Hn. unfold to_uint8. rewrite float_to_int_in_range; rewrite Qtrunc_Z; auto.
Qed.
End NumFacts.

(** ** qnn_utils.cc *)

Section QnnUtilsFacts.
Local Open Scope Q_scope.
Context `{Platform}.

Lemma GetQminQmax_inv {T} (cast : Z -> T) dt qmin qmax :
  GetQminQmax cast dt = OK (qmin, qmax) ->
  exists lo hi, qmin = cast lo /\ qmax = cast hi /\
    (INT32_MIN <= lo <= 0)%Z /\ (0 < hi <= INT32_MAX)%Z.
Proof.
  unfold INT32_MIN, INT32_MAX.
  destruct dt; simpl; intros E; inversion E; subst;
    eexists _, _; repeat split; lia.
Qed.

(** The bounds at [float]: integers, the upper one [2^31] for the signed
    32-bit type. *)
Lemma GetQminQmax_float dt (qmin qmax : float) :
  GetQminQmax to_float dt = OK (qmin, qmax) ->
  exists lo hi, qmin = inject_Z lo /\ qmax = inject_Z hi /\
    (INT32_MIN <= lo <= 0)%Z /\ (0 < hi <= INT32_MAX + 1)%Z.
Proof.
  unfold INT32_MIN, INT32_MAX.
  destruct dt; simpl; intros E; inversion E; subst;
    eexists _, _; (split; [vm_compute; reflexivity |]);
    (split; [vm_compute; reflexivity |]); lia.
Qed.


(** [Saturate] at [float], between integer bounds, as a clamp of the
    rounded value. *)
Lemma round_Saturate (lo hi : Z) x :
  (lo <= hi)%Z ->
  round_half_even (Saturate (inject_Z hi) (inject_Z lo) x)
  = Z.max lo (Z.min hi (round_half_even x)).
Proof.
  intros Hlh. unfold Saturate, less, Less_float.
  destruct (fless_reflect (inject_Z hi) x) as [Hhi | Hhi].
  - rewrite round_half_even_Z.
    assert (hi <= round_half_even x)%Z by (apply round_half_even_ge; lra).
    lia.
  - destruct (fless_reflect x (inject_Z lo)) as [Hlo | Hlo].
    + rewrite round_half_even_Z.
      assert (round_half_even x <= lo)%Z by (apply round_half_even_le; lra).
      lia.
    + assert (lo <= round_half_even x)%Z by (apply round_half_even_ge; lra).
      assert (round_half_even x <= hi)%Z by (apply round_half_even_le; lra).
      lia.
Qed.

Lemma Saturate_round (lo hi : Z) x :
  (lo <= hi)%Z ->
  Saturate (inject_Z hi) (inject_Z lo) (RoundHalfToEven x)
  = inject_Z (Z.max lo (Z.min hi (round_half_even x))).
Proof.
  intros Hlh. unfold Saturate, less, Less_float, RoundHalfToEven.
  destruct (fless_reflect (inject_Z hi) (inject_Z (round_half_even x))) as [Hhi | Hhi].
  - rewrite <- Zlt_Qlt in Hhi. f_equal. lia.
  - assert (round_half_even x <= hi)%Z.
    { destruct (Z_le_gt_dec (round_half_even x) hi); auto.
      exfalso. apply Hhi. rewrite <- Zlt_Qlt. lia. }
    destruct (fless_reflect (inject_Z (round_half_even x)) (inject_Z lo)) as [Hlo | Hlo].
    + rewrite <- Zlt_Qlt in Hlo. f_equal. lia.
    + f_equal. destruct (Z_le_gt_dec lo (round_half_even x)); [lia |].
      exfalso. apply Hlo. rewrite <- Zlt_Qlt. lia.
Qed.
End QnnUtilsFacts.

Section QnnUtilsClaims.
Local Open Scope Q_scope.
Context `{Platform}.

(** C3, as amended.  [GetQminQmax] returns the limits of the integer
    type for the signed and unsigned 8-bit and 16-bit and the signed
    32-bit fixed-point types, and a reported error, never a bound, for
    every other type, unsigned 32-bit fixed-point included. *)
Theorem GetQminQmax_table {T} (cast : Z -> T) (dt : Qnn_DataType_t) :
  if in_table dt then
    exists signed bits,
      fixed_point_format dt = Some (signed, bits) /\
      GetQminQmax cast dt
      = OK (cast (fst (int_limits signed bits)), cast (snd (int_limits signed bits)))
  else
    exists msg, GetQminQmax cast dt = Failed msg.
Proof.
  destruct dt; simpl; try (eexists; reflexivity);
    eexists _, _; split; reflexivity.
Qed.

(** C3, the claim as stated fails: the unsigned 32-bit fixed-point type
    is a fixed-point type of the SDK, and the lookup reports an error
    for it. *)
Lemma GetQminQmax_ufixed32_unsupported :
  fixed_point_format QNN_DATATYPE_UFIXED_POINT_32 = Some (false, 32%Z) /\
  GetQminQmax id QNN_DATATYPE_UFIXED_POINT_32
  = Failed "Qnn Data Type: %d not supported yet." /\
  ~ (exists qmin qmax : Z,
       GetQminQmax id QNN_DATATYPE_UFIXED_POINT_32 = OK (qmin, qmax)).
Proof.
  repeat split. intros (qmin & qmax & E). discriminate E.
Qed.




End QnnUtilsClaims.

Section QuantizeClaims.
Local Open Scope Q_scope.
Context `{Platform}.


(** C10.  In symmetric mode, for every range and every supported type,
    [GetQuantParams] returns the zero-point 0. *)
Theorem GetQuantParams_symmetric_zero (rmin rmax : float)
    (dt : Qnn_DataType_t) (qmin qmax : float) :
  GetQminQmax to_float dt = OK (qmin, qmax) ->
  exists scale, GetQuantParams rmin rmax dt true = OK (scale, 0%Z).
Proof.
  intros Hq. unfold GetQuantParams.
  destruct (CheckMinMax rmin rmax) as [rmin' rmax'].
  rewrite Hq. unfold and_then. eexists. do 2 f_equal.
  destruct (GetQminQmax_float _ _ _ Hq) as (lo & hi & -> & -> & Hlo & Hhi).
  set (abs_max := std_max (fabsf rmax') (fabsf rmin')).
  unfold std_round. rewrite (round_half_away_zero (- abs_max + abs_max)) by lra.
  assert (round_half_even (Saturate (inject_Z hi) (inject_Z lo) (inject_Z 0 / 2)) = 0%Z)
    as Hz.
  { rewrite round_Saturate by lia.
    assert (round_half_even (inject_Z 0 / 2) = 0%Z) as -> by reflexivity. lia. }
  unfold RoundHalfToEven, float in *. rewrite Hz.
  rewrite to_int32_Z by (unfold INT32_MIN, INT32_MAX; lia). reflexivity.
Qed.
End QuantizeClaims.

(** [Quantize] to an 8-bit target with scale 1: values outside the range
    saturate.  The conversion to [int] comes before the saturation, so a
    quotient beyond the range of [int] saturates from whatever the
    conversion yields, on x86-64 from [INT_MIN]. *)
Example Quantize_far_values :
  Quantize (H := x86_64) 1000 1 0 QNN_DATATYPE_UFIXED_POINT_8 = OK 255 /\
  Quantize (H := x86_64) (- (1000)) 1 0 QNN_DATATYPE_UFIXED_POINT_8 = OK 0 /\
  Quantize (H := x86_64) (1000000000000 # 1) 1 0 QNN_DATATYPE_UFIXED_POINT_8 = OK 0.
Proof. repeat split. Qed.


Lemma GetQuantParams_symmetric_zero_witness :
  exists scale,
    GetQuantParams (H := x86_64) (- (1)) 3 QNN_DATATYPE_SFIXED_POINT_16 true
    = OK (scale, 0%Z).
Proof.
  apply (GetQuantParams_symmetric_zero (H := x86_64) (- (1)) 3
           QNN_DATATYPE_SFIXED_POINT_16
           (to_float (-32768)) (to_float 32767)).
  reflexivity.
Defined.

Section ZeroPoint.
Local Open Scope Q_scope.
Context `{Platform}.

(** The derivation of [GetQuantParams] agrees with the specification's:
    rounding and saturation commute between integer bounds, and the
    mirrored range sums to 0.  The zero-point is then converted to
    [int32_t] and negated in 32-bit arithmetic, which gives its negation
    whenever it lies strictly between [INT32_MIN] and [2^31]. *)
Lemma GetQuantParams_zero_point (rmin rmax : float) (dt : Qnn_DataType_t)
    (symmetric : bool) (qmin qmax : float) :
  GetQminQmax to_float dt = OK (qmin, qmax) ->
  let '(rmin', rmax') := quant_range rmin rmax symmetric in
  let scale := (rmax' - rmin') / (qmax - qmin) in
  exists z : Z,
    spec_zero_point rmin' rmax' scale qmin qmax symmetric = inject_Z z /\
    qmin <= inject_Z z <= qmax /\
    GetQuantParams rmin rmax dt symmetric = OK (scale, sub32 0 (to_int32 (inject_Z z))) /\
    ((INT32_MIN < z <= INT32_MAX)%Z ->
     GetQuantParams rmin rmax dt symmetric = OK (scale, (- z)%Z)).
Proof.
  intros Hq. unfold GetQuantParams, quant_range. rewrite Hq.
  destruct (GetQminQmax_float _ _ _ Hq) as (lo & hi & -> & -> & Hlo & Hhi).
  destruct (CheckMinMax rmin rmax) as [rmin' rmax'].
  unfold and_then, spec_zero_point.
  assert (forall x, RoundHalfToEven (Saturate (inject_Z hi) (inject_Z lo) x)
                    = inject_Z (Z.max lo (Z.min hi (round_half_even x)))) as Hcode.
  { intros x. unfold RoundHalfToEven at 1. now rewrite round_Saturate by lia. }
  assert (forall x, Saturate (inject_Z hi) (inject_Z lo) (RoundHalfToEven x)
                    = inject_Z (Z.max lo (Z.min hi (round_half_even x)))) as Hspec.
  { intros x. now rewrite Saturate_round by lia. }
  assert (forall x z, z = Z.max lo (Z.min hi (round_half_even x)) ->
            inject_Z lo <= inject_Z z <= inject_Z hi) as Hrange.
  { intros x z ->. rewrite <- !Zle_Qle. lia. }
  destruct symmetric; cbv beta iota zeta; unfold float in *; rewrite Hcode, Hspec.
  - set (abs_max := std_max (fabsf rmax') (fabsf rmin')).
    unfold std_round.
    rewrite (round_half_away_zero (- abs_max + abs_max)) by lra.
    rewrite (round_half_away_zero ((- abs_max + abs_max) / 2))
      by (unfold Qdiv; lra).
    assert (round_half_even (inject_Z 0 / 2) = round_half_even (inject_Z 0))
      as -> by reflexivity.
    eexists. split; [reflexivity |]. split; [eapply Hrange; reflexivity |].
    split; [reflexivity |].
    intros Hz. rewrite to_int32_Z, sub32_neg by lia. reflexivity.
  - eexists. split; [reflexivity |]. split; [eapply Hrange; reflexivity |].
    split; [reflexivity |].
    intros Hz. rewrite to_int32_Z, sub32_neg by lia. reflexivity.
Qed.

(** C2, the failing input.  For the signed 32-bit type and the range
    [[0, 1]] in asymmetric mode, the rounded and saturated zero-point is
    [INT32_MIN]; [0 - zero_point] overflows, and the output is
    [INT32_MIN] again, not its negation [2^31]. *)
Theorem GetQuantParams_negation_overflow :
  let qmin := to_float (-2147483648) in
  let qmax := to_float 2147483647 in
  let scale := (1 - 0) / (qmax - qmin) in
  quant_range 0 1 false = (0, 1) /\
  GetQminQmax to_float QNN_DATATYPE_SFIXED_POINT_32 = OK (qmin, qmax) /\
  spec_zero_point 0 1 scale qmin qmax false = inject_Z (-2147483648) /\
  GetQuantParams 0 1 QNN_DATATYPE_SFIXED_POINT_32 false
  = OK (scale, (-2147483648)%Z) /\
  (-2147483648)%Z <> (- (-2147483648))%Z.
Proof.
  repeat split; try (vm_compute; reflexivity). discriminate.
Qed.

(** The constants of that run: the upper bound is [2^31] at [float], and
    the scale is [2^-32]. *)
Example GetQuantParams_sfixed32_constants :
  to_float 2147483647 = inject_Z 2147483648 /\
  to_float (-2147483648) = inject_Z (-2147483648) /\
  (1 - 0) / (to_float 2147483647 - to_float (-2147483648)) == 1 # 4294967296.
Proof. repeat split. Qed.
End ZeroPoint.

(** ** blockwise_quant_block.h *)

Section LoopFacts.

Lemma for_range_0 hi step :
  for_range 0 hi step
  = map (fun n => step * Z.of_nat n) (seq 0 (Z.to_nat ((hi + step - 1) / step))).
Proof. unfold for_range. rewrite Z.sub_0_r. reflexivity. Qed.

(** The loop variable of a loop by steps of 2 from 0. *)
Lemma elem_of_for_range_2 hi k :
  k ∈ for_range 0 hi 2 <-> (0 <= k < hi /\ k mod 2 = 0).
Proof.
  rewrite for_range_0, list_elem_of_fmap. split.
  - intros (n & -> & Hn). apply elem_of_seq in Hn. zlia.
  - intros [Hk Hm]. exists (Z.to_nat (k / 2)). split; [zlia |].
    apply elem_of_seq. zlia.
Qed.

Lemma elem_of_for_range_1 hi k : k ∈ for_range 0 hi 1 <-> 0 <= k < hi.
Proof.
  rewrite for_range_0, list_elem_of_fmap.
  replace ((hi + 1 - 1) / 1) with hi by (rewrite Z.div_1_r; lia). split.
  - intros (n & -> & Hn). apply elem_of_seq in Hn. lia.
  - intros Hk. exists (Z.to_nat k). split; [lia |]. apply elem_of_seq. lia.
Qed.

Context {A : Type}.

Lemma store_spec (s : list A) (i : Z) (x : A) :
  0 <= i < Z.of_nat (length s) ->
  exists s', store s i x = Done s' /\ length s' = length s /\
    forall j : nat, s' !! j = if Z.of_nat j =? i then Some x else s !! j.
Proof.
  intros Hi. unfold store.
  destruct (Z.leb_spec 0 i); [| lia]. destruct (Z.ltb_spec i (Z.of_nat (length s))); [| lia].
  simpl. eexists. split; [reflexivity |]. split; [apply length_insert |].
  intros j. destruct (Z.eqb_spec (Z.of_nat j) i) as [<- | Hne].
  - rewrite Nat2Z.id. apply list_lookup_insert_eq. lia.
  - apply list_lookup_insert_ne. lia.
Qed.

Lemma load_spec (s : list A) (i : Z) (d : A) :
  0 <= i < Z.of_nat (length s) ->
  load s i = Done (default d (s !! Z.to_nat i)).
Proof.
  intros Hi. unfold load. destruct (Z.ltb_spec i 0); [lia |].
  destruct (s !! Z.to_nat i) eqn:E; [reflexivity |].
  apply lookup_ge_None in E. lia.
Qed.

(** A loop over an array in which every iteration overwrites the
    elements it touches with values that depend on the position only:
    at the end an element touched by some iteration has its new value,
    and every other element is as it was. *)
Lemma for_each_pointwise (touch : Z -> nat -> bool) (new : nat -> A)
    (body : Z -> list A -> result (list A)) (len : nat) (ks : list Z) :
  (forall k s, k ∈ ks -> length s = len ->
     exists s', body k s = Done s' /\ length s' = len /\
       forall j, s' !! j = if touch k j then Some (new j) else s !! j) ->
  forall s, length s = len ->
    exists s', for_each ks body s = Done s' /\ length s' = len /\
      forall j, s' !! j
                = if existsb (fun k => touch k j) ks then Some (new j) else s !! j.
Proof.
  induction ks as [| k ks IH]; intros Hbody s Hs.
  - exists s. simpl. auto.
  - destruct (Hbody k s) as (s1 & E1 & Hlen1 & Hs1); [left | assumption |].
    destruct (IH (fun k' s' Hk' => Hbody k' s' (list_elem_of_further _ _ _ Hk')) s1 Hlen1)
      as (s2 & E2 & Hlen2 & Hs2).
    exists s2. simpl. rewrite E1. simpl. split; [exact E2 |]. split; [exact Hlen2 |].
    intros j. rewrite Hs2, Hs1.
    destruct (touch k j), (existsb _ ks); reflexivity.
Qed.
End LoopFacts.

Section Dequant.
Local Open Scope Z_scope.

Variable block_size : Z.
Hypothesis block_size_pos : 0 < block_size.
Hypothesis block_size_mod8 : block_size mod 8 = 0.

Variable main_blob : list Z.
Hypothesis main_blob_length : Z.of_nat (length main_blob) = block_size / 2.

Lemma unpack_even i :
  0 <= i -> i mod 2 = 0 ->
  unpack main_blob i
  = Z.land (default 0 (main_blob !! Z.to_nat (Z.quot i 2))) 15.
Proof.
  intros Hi Hm. unfold unpack.
  assert (Z.even i = true) as -> by (rewrite Zeven_mod; apply Z.eqb_eq; exact Hm).
  reflexivity.
Qed.

Lemma unpack_odd i :
  0 <= i -> i mod 2 = 0 ->
  unpack main_blob (i + 1)
  = Z.shiftr (default 0 (main_blob !! Z.to_nat (Z.quot i 2))) 4.
Proof.
  intros Hi Hm. unfold unpack.
  assert (Z.even (i + 1) = false) as ->.
  { rewrite Zeven_mod. apply Z.eqb_neq. zlia. }
  replace (Z.quot (i + 1) 2) with (Z.quot i 2) by zlia.
  reflexivity.
Qed.

Variables (dst : Z) (scale : float) (zp k_idx K : Z).
Hypothesis k_idx_nonneg : 0 <= k_idx.
Hypothesis k_idx_no_overflow : k_idx + block_size <= INT32_MAX.
Hypothesis dst_nonneg : 0 <= dst.

Local Abbreviation touch := (dequant_touch dst k_idx K).
Local Abbreviation value := (dequant_value main_blob dst scale zp).

Lemma dequant_touch_range (j : nat) :
  existsb (fun i => touch i j) (for_range 0 block_size 2)
  = dequant_written block_size dst k_idx K j.
Proof.
  unfold dequant_written. apply eq_true_iff_eq. rewrite existsb_exists, !andb_true_iff.
  rewrite Z.leb_le, !Z.ltb_lt. split.
  - intros (i & Hi & Ht). apply list_elem_of_In, elem_of_for_range_2 in Hi.
    unfold dequant_touch in Ht.
    apply orb_true_iff in Ht as [Ht | Ht]; apply andb_true_iff in Ht as [Hj Hk];
      apply Z.eqb_eq in Hj; apply Z.ltb_lt in Hk; zlia.
  - intros [[Hlo Hhi] Hk].
    exists (2 * ((Z.of_nat j - dst) / 2)). split.
    + apply list_elem_of_In, elem_of_for_range_2. zlia.
    + unfold dequant_touch. apply orb_true_iff.
      destruct (Z.eq_dec ((Z.of_nat j - dst) mod 2) 0).
      * left. apply andb_true_iff. rewrite Z.eqb_eq, Z.ltb_lt. zlia.
      * right. apply andb_true_iff. rewrite Z.eqb_eq, Z.ltb_lt. zlia.
Qed.

Lemma dequant_body_spec (len : nat) (i : Z) (mem : list float) :
  dst + Z.min block_size (K - k_idx) <= Z.of_nat len ->
  i ∈ for_range 0 block_size 2 -> length mem = len ->
  exists mem',
    (do mem <- (if add32 k_idx i <? K then
                  do b <- load main_blob (Z.quot i 2);
                  let x0 := inject_Z (Z.land b 15) in
                  store mem (dst + i) (scale * (x0 - inject_Z zp))%Q
                else Done mem);
     if add32 (add32 k_idx i) 1 <? K then
       do b <- load main_blob (Z.quot i 2);
       let x1 := inject_Z (Z.shiftr b 4) in
       store mem (dst + i + 1) (scale * (x1 - inject_Z zp))%Q
     else Done mem) = Done mem' /\
    length mem' = len /\
    forall j, mem' !! j
              = if touch i j then Some (value j) else mem !! j.
Proof.
  intros Hlen Hi Hmem. apply elem_of_for_range_2 in Hi as [Hi Hm].
  unfold INT32_MAX in *.
  rewrite !add32_small by (unfold INT32_MIN, INT32_MAX; lia).
  rewrite (load_spec main_blob (Z.quot i 2) 0) by zlia.
  set (b := default 0 (main_blob !! Z.to_nat (Z.quot i 2))).
  assert (forall j, Z.of_nat j = dst + i ->
            value j = (scale * (inject_Z (Z.land b 15) - inject_Z zp))%Q) as Hv0.
  { intros j Hj. unfold dequant_value.
    replace (Z.of_nat j - dst) with i by lia. now rewrite unpack_even by lia. }
  assert (forall j, Z.of_nat j = dst + i + 1 ->
            value j = (scale * (inject_Z (Z.shiftr b 4) - inject_Z zp))%Q) as Hv1.
  { intros j Hj. unfold dequant_value.
    replace (Z.of_nat j - dst) with (i + 1) by lia. now rewrite unpack_odd by lia. }
  unfold dequant_touch. simpl.
  destruct (Z.ltb_spec (k_idx + i) K) as [Hk0 | Hk0].
  - destruct (store_spec mem (dst + i) (scale * (inject_Z (Z.land b 15) - inject_Z zp))%Q)
      as (mem1 & -> & Hlen1 & Hmem1); [lia |]. simpl.
    destruct (Z.ltb_spec (k_idx + i + 1) K) as [Hk1 | Hk1].
    + destruct (store_spec mem1 (dst + i + 1)
                  (scale * (inject_Z (Z.shiftr b 4) - inject_Z zp))%Q)
        as (mem2 & -> & Hlen2 & Hmem2); [zlia |].
      exists mem2. split; [reflexivity |]. split; [lia |].
      intros j. rewrite Hmem2, Hmem1, !andb_true_r.
      destruct (Z.eqb_spec (Z.of_nat j) (dst + i + 1)) as [Hj1 | Hj1].
      * rewrite (Hv1 j Hj1). rewrite orb_true_r. reflexivity.
      * rewrite orb_false_r.
        destruct (Z.eqb_spec (Z.of_nat j) (dst + i)) as [Hj0 | Hj0];
          [rewrite (Hv0 j Hj0) |]; reflexivity.
    + exists mem1. split; [reflexivity |]. split; [lia |].
      intros j. rewrite Hmem1, andb_true_r, andb_false_r, orb_false_r.
      destruct (Z.eqb_spec (Z.of_nat j) (dst + i)) as [Hj0 | Hj0];
        [rewrite (Hv0 j Hj0) |]; reflexivity.
  - simpl. destruct (Z.ltb_spec (k_idx + i + 1) K) as [Hk1 | Hk1]; [lia |].
    exists mem. split; [reflexivity |]. split; [assumption |].
    intros j. rewrite !andb_false_r. reflexivity.
Qed.

Lemma dequant_zp_spec (mem : list float) :
  dst + Z.min block_size (K - k_idx) <= Z.of_nat (length mem) ->
  exists mem',
    dequant_zp block_size main_blob mem dst scale zp k_idx K = Done mem' /\
    length mem' = length mem /\
    forall j : nat,
      mem' !! j
      = if dequant_written block_size dst k_idx K j then Some (value j)
        else mem !! j.
Proof.
  intros Hlen. unfold dequant_zp.
  edestruct (for_each_pointwise touch value) as (mem' & E & Hl & Hj);
    [| reflexivity | ].
  - intros i s Hi Hs. apply (dequant_body_spec (length mem) i s Hlen Hi Hs).
  - exists mem'. split; [exact E |]. split; [exact Hl |].
    intros j. rewrite Hj. rewrite dequant_touch_range. reflexivity.
Qed.
End Dequant.

(** C7.  [dequant], with or without an explicit zero-point, runs without
    an out-of-bounds access whenever the array holds the valid rows of the
    block, and writes exactly the elements [dst + i] of the block with
    [k_idx + i < K]: such an element gets [scale * (value - zp)] whatever
    it held before, and every other element of the array is as it was. *)
Theorem dequant_writes_valid_rows (block_size : Z) (main_blob : list Z)
    (mem : list float) (dst : Z) (scale : float) (zp k_idx K : Z) :
  0 < block_size -> block_size mod 8 = 0 ->
  Z.of_nat (length main_blob) = block_size / 2 ->
  0 <= k_idx -> k_idx + block_size <= INT32_MAX ->
  0 <= dst -> dst + Z.min block_size (K - k_idx) <= Z.of_nat (length mem) ->
  (exists mem',
     dequant_zp block_size main_blob mem dst scale zp k_idx K = Done mem' /\
     length mem' = length mem /\
     forall j : nat,
       mem' !! j
       = if dequant_written block_size dst k_idx K j
         then Some (dequant_value main_blob dst scale zp j)
         else mem !! j) /\
  (exists mem',
     dequant block_size main_blob mem dst scale k_idx K = Done mem' /\
     length mem' = length mem /\
     forall j : nat,
       mem' !! j
       = if dequant_written block_size dst k_idx K j
         then Some (dequant_value main_blob dst scale 8 j)
         else mem !! j).
Proof.
  intros. split; [| unfold dequant]; apply dequant_zp_spec; assumption.
Qed.

(** The boundary block of a column of [K = 11] rows with [block_size = 8]:
    the second block starts at row 8 and holds the rows 8, 9 and 10. *)
Lemma dequant_writes_valid_rows_witness :
  let mem := [10; 11; 12; 13; 14; 15; 16; 17; 18; 19; 20]%Q in
  (exists mem',
     dequant_zp 8 [33; 67; 101; 135] mem 8 1 8 8 11 = Done mem' /\
     length mem' = length mem /\
     forall j : nat,
       mem' !! j
       = if dequant_written 8 8 8 11 j
         then Some (dequant_value [33; 67; 101; 135] 8 1 8 j)
         else mem !! j) /\
  (exists mem',
     dequant 8 [33; 67; 101; 135] mem 8 1 8 11 = Done mem' /\
     length mem' = length mem /\
     forall j : nat,
       mem' !! j
       = if dequant_written 8 8 8 11 j
         then Some (dequant_value [33; 67; 101; 135] 8 1 8 j)
         else mem !! j).
Proof.
  apply (dequant_writes_valid_rows 8 [33; 67; 101; 135]
           [10; 11; 12; 13; 14; 15; 16; 17; 18; 19; 20]%Q 8 1 8 8 11);
    try reflexivity; vm_compute; congruence.
Defined.

(** The same block run on the column: rows 0 to 7 keep their values and
    rows 8, 9 and 10 are written; on a shorter array the write of row 10
    is caught. *)
Example dequant_boundary_block :
  dequant 8 [33; 67; 101; 135]
          [10; 11; 12; 13; 14; 15; 16; 17; 18; 19; 20]%Q 8 1 8 11
  = Done [10; 11; 12; 13; 14; 15; 16; 17; -7; -6; -5]%Q /\
  dequant 8 [33; 67; 101; 135]
          [10; 11; 12; 13; 14; 15; 16; 17; 18; 19]%Q 8 1 8 11
  = Fault OutOfBounds.
Proof. split; vm_compute; reflexivity. Qed.

Section PackFacts.
Local Open Scope Z_scope.

Lemma nibble_cases (a : Z) :
  0 <= a <= 15 -> In a [0; 1; 2; 3; 4; 5; 6; 7; 8; 9; 10; 11; 12; 13; 14; 15].
Proof. intros Ha. simpl. lia. Qed.

(** Two 4-bit values packed into a byte are recovered by the mask and
    the shift of [dequant]. *)
Lemma unpack_pack (vi0 vi1 : Z) :
  0 <= vi0 <= 15 -> 0 <= vi1 <= 15 ->
  Z.land (pack vi0 vi1) 15 = vi0 /\ Z.shiftr (pack vi0 vi1) 4 = vi1.
Proof.
  intros H0 H1. apply nibble_cases in H0, H1. simpl in H0, H1.
  repeat (destruct H0 as [<- | H0]; [| try contradiction]);
    repeat (destruct H1 as [<- | H1]; [| try contradiction]);
    split; reflexivity.
Qed.

(** The packing loop of both [quant] overloads: byte [p] is written for
    [p < ceil(klen / 2)], and no other byte is. *)
Lemma pack_loop_spec (val : Z -> Z)
    (body : Z -> list Z -> result (list Z)) (klen : Z) (main_blob : list Z) :
  (forall kk b, body kk b = store b (Z.quot kk 2) (val kk)) ->
  0 <= klen <= 2 * Z.of_nat (length main_blob) ->
  exists main_blob',
    for_each (for_range 0 klen 2) body main_blob = Done main_blob' /\
    length main_blob' = length main_blob /\
    forall p : nat,
      main_blob' !! p
      = if Z.of_nat p <? (klen + 1) / 2 then Some (val (2 * Z.of_nat p))
        else main_blob !! p.
Proof.
  intros Hbody Hklen.
  edestruct (for_each_pointwise
               (fun kk (p : nat) => Z.of_nat p =? Z.quot kk 2)
               (fun p : nat => val (2 * Z.of_nat p)) body (length main_blob)
               (for_range 0 klen 2))
    as (b' & E & Hl & Hp); [| reflexivity |].
  - intros kk s Hkk Hs. apply elem_of_for_range_2 in Hkk as [Hkk Hm].
    rewrite Hbody.
    destruct (store_spec s (Z.quot kk 2) (val kk)) as (s' & -> & Hl' & Hs');
      [zlia |].
    exists s'. split; [reflexivity |]. split; [lia |].
    intros j. rewrite Hs'. destruct (Z.eqb_spec (Z.of_nat j) (Z.quot kk 2)) as [Hj | Hj];
      [| reflexivity].
    do 2 f_equal. zlia.
  - exists b'. split; [exact E |]. split; [exact Hl |].
    intros p. rewrite Hp.
    assert (existsb (fun k => Z.of_nat p =? Z.quot k 2) (for_range 0 klen 2)
            = (Z.of_nat p <? (klen + 1) / 2)) as ->; [| reflexivity].
    apply eq_true_iff_eq. rewrite existsb_exists, Z.ltb_lt. split.
    + intros (kk & Hkk & Ht). apply list_elem_of_In, elem_of_for_range_2 in Hkk.
      apply Z.eqb_eq in Ht. zlia.
    + intros Hlt. exists (2 * Z.of_nat p). split.
      * apply list_elem_of_In, elem_of_for_range_2. zlia.
      * apply Z.eqb_eq. zlia.
Qed.

(** Element [i] of the block after the loop, for [val] packing the two
    4-bit values [vi (kk)] and [vi (kk + 1)]. *)
Lemma unpack_pack_loop (vi : Z -> Z) (klen : Z) (main_blob main_blob' : list Z) :
  (forall i, 0 <= vi i <= 15) ->
  (forall p : nat,
      main_blob' !! p
      = if Z.of_nat p <? (klen + 1) / 2
        then Some (pack (vi (2 * Z.of_nat p)) (vi (2 * Z.of_nat p + 1)))
        else main_blob !! p) ->
  forall i, 0 <= i < 2 * ((klen + 1) / 2) -> unpack main_blob' i = vi i.
Proof.
  intros Hvi Hp i Hi. unfold unpack.
  replace (Z.quot i 2) with (i / 2) by zlia.
  specialize (Hp (Z.to_nat (i / 2))).
  rewrite Z2Nat.id in Hp by zlia.
  destruct (Z.ltb_spec (i / 2) ((klen + 1) / 2)); [| zlia].
  rewrite Hp. simpl.
  destruct (unpack_pack (vi (2 * (i / 2))) (vi (2 * (i / 2) + 1))) as [E0 E1];
    [apply Hvi .. |].
  destruct (Z.even i) eqn:Ev.
  - rewrite E0. f_equal. rewrite Zeven_mod in Ev. apply Z.eqb_eq in Ev. zlia.
  - rewrite E1. f_equal. rewrite Zeven_mod in Ev. apply Z.eqb_neq in Ev. zlia.
Qed.
End PackFacts.

Section ClampFacts.
Local Open Scope Q_scope.
Context `{Platform}.

(** The clamp to [[0, 15]] followed by the conversion to [uint8_t]:
    the conversion is always of a value in range. *)
Lemma clamp_u4_spec (x : float) :
  (0 <= clamp_u4 x <= 15)%Z /\
  clamp_u4 x = Qfloor (std_min 15 (std_max 0 x)).
Proof.
  unfold clamp_u4, to_uint8.
  set (y := std_min 15 (std_max 0 x)).
  assert (0 <= y <= 15) as [Hy0 Hy15].
  { unfold y. destruct (std_max_spec 0 x) as [[? ->] | [? ->]];
      destruct (std_min_spec 15 x) as [[? E] | [? E]];
      destruct (std_min_spec 15 0) as [[? E'] | [? E']];
      rewrite ?E, ?E'; lra. }
  assert (0 <= Qfloor y <= 15)%Z as Hf.
  { split.
    - change 0%Z with (Qfloor (inject_Z 0)). apply Qfloor_resp_le. exact Hy0.
    - change 15%Z with (Qfloor (inject_Z 15)). apply Qfloor_resp_le. exact Hy15. }
  rewrite float_to_int_in_range; rewrite Qtrunc_nonneg by exact Hy0; [auto | lia].
Qed.

End ClampFacts.

Section QuantFacts.
Local Open Scope Q_scope.
Context `{Platform}.

Variable block_size : Z.
Hypothesis block_size_pos : (0 < block_size)%Z.
Hypothesis block_size_mod8 : (block_size mod 8 = 0)%Z.
Hypothesis block_size_int32 : (block_size <= INT32_MAX)%Z.

Variable main_blob : list Z.
Hypothesis main_blob_length : (Z.of_nat (length main_blob) = block_size / 2)%Z.

Variables (src : Z -> float) (k_idx K N : Z).
Hypothesis k_idx_nonneg : (0 <= k_idx)%Z.
Hypothesis k_idx_valid : (k_idx < K)%Z.
Hypothesis K_int32 : (K <= INT32_MAX)%Z.

(** [klen], the number of valid rows of the block. *)
Local Abbreviation klen := (Z.min block_size (K - k_idx)).

Lemma klen_eq : Z.min block_size (sub32 K k_idx) = klen.
Proof. rewrite sub32_small; [reflexivity |]. unfold INT32_MIN, INT32_MAX in *. lia. Qed.

Lemma klen_size_t : to_size_t klen = klen.
Proof. unfold to_size_t. apply Z.mod_small. unfold INT32_MAX in *. lia. Qed.

(** The loop that finds the least and the greatest value. *)
Lemma minmax_fold (ks : list Z) (min0 max0 : float) :
  let '(min, max) :=
    fold_left (fun '(min, max) kk =>
                 let v := src (N * kk) in
                 let min := if fless v min then v else min in
                 let max := if fless max v then v else max in
                 (min, max)) ks (min0, max0) in
  min <= min0 /\ max0 <= max /\
  forall k, k ∈ ks -> min <= src (N * k) <= max.
Proof.
  revert min0 max0. induction ks as [| k ks IH]; intros min0 max0; simpl.
  - split; [lra | split; [lra |]]. intros k' Hk'. inversion Hk'.
  - specialize (IH (if fless (src (N * k)) min0 then src (N * k) else min0)
                   (if fless max0 (src (N * k)) then src (N * k) else max0)).
    destruct (fold_left _ ks _) as [min max].
    destruct IH as (Hmin & Hmax & Hks).
    destruct (fless_reflect (src (N * k)) min0), (fless_reflect max0 (src (N * k))).
    all: (split; [lra | split; [lra |]]).
    all: intros k' Hk'; apply elem_of_cons in Hk' as [-> | Hk'];
      [pose proof (Hks k) as Hk0; lra | apply Hks; exact Hk'].
Qed.

(** The loop that finds the value of largest magnitude. *)
Lemma amax_fold (ks : list Z) (amax0 max0 : float) :
  fabsf max0 == amax0 ->
  let '(amax, max) :=
    fold_left (fun '(amax, max) kk =>
                 let v := src (N * kk) in
                 if fless amax (fabsf v) then (fabsf v, v) else (amax, max))
              ks (amax0, max0) in
  fabsf max == amax /\ amax0 <= amax /\
  forall k, k ∈ ks -> fabsf (src (N * k)) <= amax.
Proof.
  revert amax0 max0. induction ks as [| k ks IH]; intros amax0 max0 H0; simpl.
  - split; [lra | split; [lra |]]. intros k' Hk'. inversion Hk'.
  - destruct (fless_reflect amax0 (fabsf (src (N * k)))) as [Hlt | Hge].
    + specialize (IH (fabsf (src (N * k))) (src (N * k)) ltac:(reflexivity)).
      destruct (fold_left _ ks _) as [amax max].
      destruct IH as (Ha & Hmono & Hks). split; [lra | split; [lra |]].
      intros k' Hk'. apply elem_of_cons in Hk' as [-> | Hk'];
        [lra | apply Hks; exact Hk'].
    + specialize (IH amax0 max0 H0).
      destruct (fold_left _ ks _) as [amax max].
      destruct IH as (Ha & Hmono & Hks). split; [lra | split; [lra |]].
      intros k' Hk'. apply elem_of_cons in Hk' as [-> | Hk'];
        [lra | apply Hks; exact Hk'].
Qed.

Lemma reciprocal_spec (scale : float) :
  exists r, reciprocal scale = Done r /\
    (scale == 0 -> r = 0) /\ (~ scale == 0 -> r = 1 / scale).
Proof.
  unfold reciprocal, checked_div.
  destruct (Qeq_bool_reflect scale 0); eexists; (split; [reflexivity |]);
    split; intros; try reflexivity; contradiction.
Qed.

(** The outputs of the asymmetric [quant]: it runs to completion, the
    range [[min, max]] includes 0 and the valid rows, the bytes beyond
    [ceil(klen / 2)] are not written, and an element below
    [2 * ceil(klen / 2)] is the quantized value of its row, or of 0 in
    the padding position. *)
Lemma quant_zp_char :
  exists (min max recip : float) (zp : Z) (main_blob' : list Z),
    let scale := (max - min) / 15 in
    let zero_point_fp := if Qeq_bool scale 0 then min else 0 - min / scale in
    quant_zp block_size main_blob src k_idx K N = Done (scale, zp, main_blob') /\
    min <= 0 <= max /\
    (forall i, (0 <= i < klen)%Z -> min <= src (N * i)%Z <= max) /\
    reciprocal scale = Done recip /\
    zp = (if fless zero_point_fp 0 then 0%Z
          else if fless 15 zero_point_fp then 15%Z
          else to_uint8 (roundf zero_point_fp)) /\
    length main_blob' = length main_blob /\
    (forall p : nat, ((klen + 1) / 2 <= Z.of_nat p)%Z ->
                     main_blob' !! p = main_blob !! p) /\
    (forall i, (0 <= i < 2 * ((klen + 1) / 2))%Z ->
       unpack main_blob' i
       = clamp_u4 (roundf ((if (i <? klen)%Z then src (N * i)%Z else 0) * recip
                           + inject_Z zp))).
Proof.
  unfold quant_zp. rewrite klen_eq, klen_size_t.
  pose proof (minmax_fold (for_range 0 klen 1) (src 0) (src 0)) as Hfold.
  destruct (fold_left _ (for_range 0 klen 1) _) as [min0 max0].
  destruct Hfold as (Hmin & Hmax & Hrows).
  set (min := std_min min0 0). set (max := std_max max0 0).
  set (scale := (max - min) / 15).
  destruct (reciprocal_spec scale) as (recip & Erecip & Hr0 & Hr1).
  rewrite Erecip. simpl bind.
  set (zero_point_fp := if Qeq_bool scale 0 then min else 0 - min / scale).
  assert ((if negb (Qeq_bool scale 0)
           then do q <- checked_div min scale; Done (0 - q)
           else Done min) = Done zero_point_fp) as ->.
  { unfold zero_point_fp, checked_div. destruct (Qeq_bool scale 0); reflexivity. }
  simpl bind.
  set (zp := if fless zero_point_fp 0 then 0%Z
             else if fless 15 zero_point_fp then 15%Z
             else to_uint8 (roundf zero_point_fp)).
  set (vi := fun i : Z =>
               clamp_u4 (roundf ((if (i <? klen)%Z then src (N * i)%Z else 0) * recip
                                 + inject_Z zp))).
  match goal with
  | |- context [for_each _ ?body main_blob] =>
      destruct (pack_loop_spec
                  (fun kk => pack (clamp_u4 (roundf (src (N * kk)%Z * recip
                                                     + inject_Z zp)))
                                  (vi (kk + 1)%Z))
                  body klen main_blob) as (blob' & -> & Hlen & Hblob);
      [intros kk b; reflexivity | zlia |]
  end.
  simpl bind.
  exists min, max, recip, zp, blob'. cbv zeta.
  split; [reflexivity |].
  split; [unfold min, max;
          destruct (std_min_spec min0 0) as [[? ->] | [? ->]];
          destruct (std_max_spec max0 0) as [[? ->] | [? ->]]; lra |].
  split.
  { intros i Hi. specialize (Hrows i ltac:(apply elem_of_for_range_1; lia)).
    unfold min, max.
    destruct (std_min_spec min0 0) as [[? ->] | [? ->]];
      destruct (std_max_spec max0 0) as [[? ->] | [? ->]]; lra. }
  split; [exact Erecip |]. split; [reflexivity |]. split; [exact Hlen |].
  split.
  { intros p Hp. rewrite Hblob. destruct (Z.ltb_spec (Z.of_nat p) ((klen + 1) / 2));
      [lia | reflexivity]. }
  apply (unpack_pack_loop vi klen main_blob).
  - intros i. apply clamp_u4_spec.
  - intros p. rewrite Hblob.
    destruct (Z.ltb_spec (Z.of_nat p) ((klen + 1) / 2)) as [Hp | Hp]; [| reflexivity].
    do 2 f_equal. unfold vi.
    destruct (Z.ltb_spec (2 * Z.of_nat p) klen); [reflexivity | zlia].
Qed.

(** The outputs of the symmetric [quant]. *)
Lemma quant_char :
  exists (amax max recip : float) (main_blob' : list Z),
    let scale := max / - (8) in
    quant block_size main_blob src k_idx K N = Done (scale, main_blob') /\
    fabsf max == amax /\
    (forall i, (0 <= i < klen)%Z -> fabsf (src (N * i)%Z) <= amax) /\
    reciprocal scale = Done recip /\
    length main_blob' = length main_blob /\
    (forall p : nat, ((klen + 1) / 2 <= Z.of_nat p)%Z ->
                     main_blob' !! p = main_blob !! p) /\
    (forall i, (0 <= i < 2 * ((klen + 1) / 2))%Z ->
       unpack main_blob' i
       = clamp_u4 ((if (i <? klen)%Z then src (N * i)%Z * recip else 0)
                   + (17 # 2))).
Proof.
  unfold quant. rewrite klen_eq, klen_size_t.
  pose proof (amax_fold (for_range 0 klen 1) 0 0 ltac:(reflexivity)) as Hfold.
  destruct (fold_left _ (for_range 0 klen 1) _) as [amax max].
  destruct Hfold as (Hamax & _ & Hrows).
  set (scale := max / - (8)).
  destruct (reciprocal_spec scale) as (recip & Erecip & Hr0 & Hr1).
  rewrite Erecip. simpl bind.
  set (vi := fun i : Z =>
               clamp_u4 ((if (i <? klen)%Z then src (N * i)%Z * recip else 0)
                         + (17 # 2))).
  match goal with
  | |- context [for_each _ ?body main_blob] =>
      destruct (pack_loop_spec
                  (fun kk => pack (clamp_u4 (src (N * kk)%Z * recip + (17 # 2)))
                                  (vi (kk + 1)%Z))
                  body klen main_blob) as (blob' & -> & Hlen & Hblob);
      [intros kk b; reflexivity | zlia |]
  end.
  simpl bind.
  exists amax, max, recip, blob'. cbv zeta.
  split; [reflexivity |]. split; [exact Hamax |].
  split; [intros i Hi; apply Hrows, elem_of_for_range_1; lia |].
  split; [exact Erecip |]. split; [exact Hlen |].
  split.
  { intros p Hp. rewrite Hblob. destruct (Z.ltb_spec (Z.of_nat p) ((klen + 1) / 2));
      [lia | reflexivity]. }
  apply (unpack_pack_loop vi klen main_blob).
  - intros i. apply clamp_u4_spec.
  - intros p. rewrite Hblob.
    destruct (Z.ltb_spec (Z.of_nat p) ((klen + 1) / 2)) as [Hp | Hp]; [| reflexivity].
    do 2 f_equal. unfold vi.
    destruct (Z.ltb_spec (2 * Z.of_nat p) klen); [reflexivity | zlia].
Qed.
End QuantFacts.

Section QuantArith.
Local Open Scope Q_scope.
Context `{Platform}.

Lemma fless_comp x x' y y' : x == x' -> y == y' -> fless x y = fless x' y'.
Proof.
  intros Hx Hy.
  destruct (fless_reflect x y), (fless_reflect x' y'); try reflexivity; exfalso; lra.
Qed.

Lemma round_half_away_comp x y : x == y -> round_half_away x = round_half_away y.
Proof.
  intros Hxy. unfold round_half_away.
  rewrite (fless_comp x y 0 0 Hxy ltac:(reflexivity)).
  destruct (fless y 0); [apply Qceiling_comp | apply Qfloor_comp]; lra.
Qed.




(** The zero-point of the asymmetric [quant]: clamped below and above,
    rounded in between. *)
Lemma zero_point_range (zero_point_fp : float) :
  let zp := if fless zero_point_fp 0 then 0%Z
            else if fless 15 zero_point_fp then 15%Z
            else to_uint8 (roundf zero_point_fp) in
  (0 <= zp <= 15)%Z /\
  (0 <= zero_point_fp <= 15 -> zp = round_half_away zero_point_fp).
Proof.
  pose proof (round_half_away_near zero_point_fp) as [Hr1 Hr2].
  cbv zeta.
  destruct (fless_reflect zero_point_fp 0) as [Hlo | Hlo]; [split; [lia | intros; exfalso; lra] |].
  destruct (fless_reflect 15 zero_point_fp) as [Hhi | Hhi]; [split; [lia | intros; exfalso; lra] |].
  assert (0 <= round_half_away zero_point_fp)%Z
    by (apply (Z_lt_from_Q _ _ (zero_point_fp - (1 # 2))); qlra).
  assert (round_half_away zero_point_fp <= 15)%Z
    by (apply (Z_lt_from_Q _ _ zero_point_fp); qlra).
  unfold roundf. rewrite to_uint8_Z by lia. split; [lia | reflexivity].
Qed.




End QuantArith.

Section QuantClaims.
Local Open Scope Q_scope.
Context `{Platform}.

Lemma valid_block_int32 block_size main_blob k_idx K :
  valid_block block_size main_blob k_idx K -> (block_size <= INT32_MAX)%Z.
Proof. unfold valid_block. lia. Qed.

Lemma reciprocal_zero (scale : float) : scale == 0 -> reciprocal scale = Done 0.
Proof.
  intros Hs. unfold reciprocal.
  destruct (Qeq_bool_reflect scale 0); [reflexivity | contradiction].
Qed.




End QuantClaims.

Section RoundTrip.
Local Open Scope Q_scope.
Context `{Platform}.

Lemma fabsf_Qabs (x : Q) : fabsf x == Qabs x.
Proof.
  destruct (fabsf_spec x) as [[Hx ->] | [Hx ->]].
  - rewrite Qabs_neg by lra. reflexivity.
  - rewrite Qabs_pos by lra. reflexivity.
Qed.


End RoundTrip.

(** ** Concrete blocks *)

(** The two scenarios of the specification, in exact arithmetic: the
    block 0, 0.5, 1, -1, 0, ... in asymmetric mode has the scale 2/15,
    and the block -1, 1, 0, ... in symmetric mode has the scale 1/8 and
    maps 0 to 8. *)
Example quant_scenarios :
  quant_zp (H := x86_64) 8 [0; 0; 0; 0]
    (src_of_list [0; 1 # 2; 1; - (1); 0; 0; 0; 0]%Q) 0 8 1
  = Done ((2 # 15)%Q, 8, [200; 31; 136; 136]) /\
  quant (H := x86_64) 8 [0; 0; 0; 0]
    (src_of_list [- (1); 1; 0; 0; 0; 0; 0; 0]%Q) 0 8 1
  = Done ((1 # 8)%Q, [240; 136; 136; 136]) /\
  unpack [240; 136; 136; 136] 2 = 8.
Proof. repeat split; vm_compute; reflexivity. Qed.






(** ** qnn_utils.cc: quantization parameters, [Quantize] and
       [Dequantize] together *)

Section QuantParamsFacts.
Local Open Scope Q_scope.
Context `{Platform}.


(** The range [CheckMinMax] returns. *)
Lemma CheckMinMax_bounds (rmin rmax : float) :
  fst (CheckMinMax rmin rmax) <= 0 /\ 0 <= snd (CheckMinMax rmin rmax) /\
  fst (CheckMinMax rmin rmax) + (1 # 10000) <= snd (CheckMinMax rmin rmax).
Proof.
  unfold CheckMinMax. simpl.
  destruct (std_max_spec rmax (rmin + (1 # 10000))) as [[? ->] | [? ->]];
    destruct (std_min_spec rmin 0) as [[? ->] | [? ->]].
  all: match goal with
       | |- context [std_max ?a 0] =>
           destruct (std_max_spec a 0) as [[? ->] | [? ->]]
       end.
  all: repeat split; lra.
Qed.

(** A range that includes 0 and spans 0.0001 is a fixed point. *)
Lemma CheckMinMax_stable (rmin rmax : float) :
  rmin <= 0 -> 0 <= rmax -> rmin + (1 # 10000) <= rmax ->
  CheckMinMax rmin rmax = (rmin, rmax).
Proof.
  intros H1 H2 H3. unfold CheckMinMax, std_max, std_min.
  destruct (fless_reflect rmax (rmin + (1 # 10000))); [lra |].
  destruct (fless_reflect 0 rmin); [lra |].
  destruct (fless_reflect rmax 0); [lra |]. reflexivity.
Qed.



Lemma GetQuantParams_supported (rmin rmax : float) (dt : Qnn_DataType_t)
    (symmetric : bool) (scale : float) (zero_point : Z) :
  GetQuantParams rmin rmax dt symmetric = OK (scale, zero_point) ->
  exists qmin qmax : float, GetQminQmax to_float dt = OK (qmin, qmax).
Proof.
  unfold GetQuantParams. destruct (CheckMinMax rmin rmax) as [a b].
  destruct symmetric;
    (destruct (GetQminQmax to_float dt) as [[qmin qmax] | msg];
     [eauto | simpl; discriminate]).
Qed.


Lemma round_half_even_comp x y : x == y -> round_half_even x = round_half_even y.
Proof.
  intros Hxy. unfold round_half_even.
  rewrite (Qfloor_comp x y Hxy).
  rewrite (fless_comp (x - inject_Z (Qfloor y)) (y - inject_Z (Qfloor y))
             (1 # 2) (1 # 2)) by lra.
  rewrite (fless_comp (1 # 2) (1 # 2) (x - inject_Z (Qfloor y))
             (y - inject_Z (Qfloor y))) by lra.
  reflexivity.
Qed.




(** [Quantize] when the rounded value lies in the target range. *)
Lemma Quantize_in_range (v : double) (scale : float) (zero_point : Z)
    (dt : Qnn_DataType_t) (qmin qmax : Z) :
  GetQminQmax id dt = OK (qmin, qmax) -> ~ scale == 0 ->
  (qmin <= round_half_away (v / scale - inject_Z zero_point) <= qmax)%Z ->
  Quantize v scale zero_point dt
  = OK (round_half_away (v / scale - inject_Z zero_point)).
Proof.
  intros Hq Hs Hr. unfold Quantize. rewrite Hq. unfold and_then.
  destruct (GetQminQmax_inv _ _ _ _ Hq) as (lo & hi & -> & -> & Hlo & Hhi).
  unfold id in *. unfold ddiv.
  destruct (Qeq_bool_reflect scale 0) as [? | _]; [contradiction |].
  unfold option_map, std_round.
  set (r := round_half_away _) in *.
  rewrite float_to_int_in_range by (rewrite Qtrunc_Z; lia).
  rewrite Qtrunc_Z. unfold Saturate, less, Less_int.
  destruct (Z.ltb_spec hi r); [lia |].
  destruct (Z.ltb_spec r lo); [lia | reflexivity].
Qed.

(** [Quantize] at a value whose quotient by the scale, less the
    zero-point, is the integer [q] of the target range. *)
Lemma Quantize_exact (v : double) (scale : float) (zero_point q : Z)
    (dt : Qnn_DataType_t) (qmin qmax : Z) :
  GetQminQmax id dt = OK (qmin, qmax) -> ~ scale == 0 ->
  v / scale - inject_Z zero_point == inject_Z q ->
  (qmin <= q <= qmax)%Z ->
  Quantize v scale zero_point dt = OK q.
Proof.
  intros Hq Hs Hv Hr.
  assert (round_half_away (v / scale - inject_Z zero_point) = q) as Hround
    by (rewrite (round_half_away_comp _ _ Hv); apply round_half_away_Z).
  rewrite <- Hround. apply (Quantize_in_range _ _ _ _ qmin qmax); auto.
  rewrite Hround. exact Hr.
Qed.

End QuantParamsFacts.

Section QuantParamsExtras.
Local Open Scope Q_scope.
Context `{Platform}.

(** X1.  [CheckMinMax] is idempotent: the range it returns is returned
    unchanged when it is checked again. *)
Theorem CheckMinMax_idempotent (rmin rmax : float) :
  CheckMinMax (fst (CheckMinMax rmin rmax)) (snd (CheckMinMax rmin rmax))
  = CheckMinMax rmin rmax.
Proof.
  pose proof (CheckMinMax_bounds rmin rmax) as (Ha & Hb & Hab).
  destruct (CheckMinMax rmin rmax) as [a b]. simpl in *.
  apply CheckMinMax_stable; assumption.
Qed.


(** X3.  [Quantize] undoes [Dequantize]: for a supported type, a scale that
    is not 0 and any offset, a quantized value [q] of the target range
    that is dequantized and quantized again with the same scale and
    offset is [q]. *)
Theorem Quantize_Dequantize (offset q : Z) (scale : float)
    (dt : Qnn_DataType_t) (qmin qmax : Z) :
  GetQminQmax id dt = OK (qmin, qmax) -> ~ scale == 0 ->
  (qmin <= q <= qmax)%Z ->
  Quantize (Dequantize offset scale (inject_Z q)) scale offset dt = OK q.
Proof.
  intros Hq Hs Hr. apply (Quantize_exact _ _ _ q _ qmin qmax); auto.
  unfold Dequantize. field. exact Hs.
Qed.



End QuantParamsExtras.


Lemma Quantize_Dequantize_witness :
  Quantize (H := x86_64) (Dequantize (-3) (1 # 2) (inject_Z 200)) (1 # 2) (-3)
    QNN_DATATYPE_UFIXED_POINT_8 = OK 200%Z.
Proof.
  apply (Quantize_Dequantize (H := x86_64) (-3) 200 (1 # 2)
           QNN_DATATYPE_UFIXED_POINT_8 0 255).
  - reflexivity.
  - vm_compute. discriminate.
  - lia.
Defined.




Section QuantParamsRoundTrip.
Local Open Scope Q_scope.
Context `{Platform}.





End QuantParamsRoundTrip.




(** ** blockwise_quant_block.h: what [quant] followed by [dequant]
       preserves *)

Section DecodeFacts.
Local Open Scope Q_scope.
Context `{Platform}.



Variable block_size : Z.
Variable main_blob : list Z.
Variables (src : Z -> float) (k_idx K N : Z) (mem : list float) (dst : Z).
Hypothesis Hvalid : valid_block block_size main_blob k_idx K.

Local Abbreviation klen := (Z.min block_size (K - k_idx)).

Hypothesis Hdst : (0 <= dst)%Z.
Hypothesis Hmem : (dst + klen <= Z.of_nat (length mem))%Z.

(** The value the asymmetric [quant] and [dequant] give a valid row. *)
Lemma quant_zp_decode :
  exists (min max recip : Q) (zp : Z) (blob' : list Z) (mem' : list float),
    let scale := (max - min) / 15 in
    quant_zp block_size main_blob src k_idx K N = Done (scale, zp, blob') /\
    dequant_zp block_size blob' mem dst scale zp k_idx K = Done mem' /\
    min <= 0 <= max /\
    (scale == 0 -> recip = 0) /\ (~ scale == 0 -> recip = 1 / scale) /\
    (0 <= zp <= 15)%Z /\
    (forall i, (0 <= i < klen)%Z ->
       mem' !! Z.to_nat (dst + i)
       = Some (scale * (inject_Z (clamp_u4 (roundf (src (N * i)%Z * recip
                                                    + inject_Z zp)))
                        - inject_Z zp))) /\
    length blob' = length main_blob.
Proof.
  pose proof (valid_block_int32 _ _ _ _ Hvalid) as Hbs.
  destruct Hvalid as (Hpos & Hmod & Hlen & Hk0 & Hk & HK & Hovf).
  destruct (quant_zp_char block_size Hpos Hmod Hbs main_blob Hlen src k_idx K N
              Hk0 Hk HK)
    as (min & max & recip & zp & blob' & E & Hmm & Hrows & Er & Ezp & Hl & _ & Hun).
  cbv zeta in E, Ezp, Er. unfold float in min, max, recip.
  set (scale := (max - min) / 15) in *.
  destruct (dequant_zp_spec block_size Hmod blob'
              ltac:(rewrite Hl; exact Hlen) dst scale zp
              k_idx K Hk0 Hovf Hdst mem Hmem) as (mem' & Ed & _ & Hd).
  destruct (reciprocal_spec scale) as (recip' & Er' & Hr0 & Hr1).
  rewrite Er in Er'. injection Er' as <-.
  exists min, max, recip, zp, blob', mem'. cbv zeta. fold scale.
  split; [exact E |]. split; [exact Ed |]. split; [exact Hmm |].
  split; [exact Hr0 |]. split; [exact Hr1 |].
  split; [rewrite Ezp; apply zero_point_range |].
  split; [| exact Hl].
  intros i Hi. rewrite Hd.
  assert (dequant_written block_size dst k_idx K (Z.to_nat (dst + i)) = true) as ->.
  { unfold dequant_written. rewrite !andb_true_iff, Z.leb_le, !Z.ltb_lt. lia. }
  unfold dequant_value.
  replace (Z.of_nat (Z.to_nat (dst + i)) - dst)%Z with i by lia.
  rewrite (Hun i) by zlia.
  destruct (Z.ltb_spec i klen) as [_ | ?]; [reflexivity | lia].
Qed.

(** The value of largest magnitude that the first loop of the symmetric
    [quant] selects is 0 or one of the rows. *)
Lemma amax_fold_selected (ks : list Z) (amax0 max0 : float) :
  let '(amax, max) :=
    fold_left (fun '(amax, max) kk =>
                 let v := src (N * kk) in
                 if fless amax (fabsf v) then (fabsf v, v) else (amax, max))
              ks (amax0, max0) in
  max = max0 \/ exists k, k ∈ ks /\ max = src (N * k)%Z.
Proof.
  revert amax0 max0. induction ks as [| k ks IH]; intros amax0 max0; simpl.
  - left. reflexivity.
  - destruct (fless amax0 (fabsf (src (N * k)))).
    + specialize (IH (fabsf (src (N * k))) (src (N * k))).
      destruct (fold_left _ ks _) as [amax max].
      right. destruct IH as [-> | (k' & Hk' & ->)].
      * exists k. split; [left | reflexivity].
      * exists k'. split; [right; exact Hk' | reflexivity].
    + specialize (IH amax0 max0).
      destruct (fold_left _ ks _) as [amax max].
      destruct IH as [-> | (k' & Hk' & ->)]; [left; reflexivity |].
      right. exists k'. split; [right; exact Hk' | reflexivity].
Qed.

Lemma quant_selected (scale : float) (blob' : list Z) :
  quant block_size main_blob src k_idx K N = Done (scale, blob') ->
  exists max : Q,
    scale = (max / - (8)) /\
    (max = 0 \/
     exists k, k ∈ for_range 0 (Z.min block_size (sub32 K k_idx)) 1 /\
               max = src (N * k)%Z).
Proof.
  unfold quant.
  pose proof (amax_fold_selected
                (for_range 0 (Z.min block_size (sub32 K k_idx)) 1) 0 0) as Hsel.
  destruct (fold_left _ _ _) as [amax max].
  destruct (reciprocal _) as [recip | ?]; simpl bind; [| discriminate].
  destruct (for_each _ _ _) as [b | ?]; simpl bind; [| discriminate].
  intros E. injection E as <- <-. exists max. split; [reflexivity | exact Hsel].
Qed.

(** The value the symmetric [quant] and [dequant] give a valid row. *)
Lemma quant_decode :
  exists (max recip : Q) (blob' : list Z) (mem' : list float),
    let scale := max / - (8) in
    quant block_size main_blob src k_idx K N = Done (scale, blob') /\
    dequant block_size blob' mem dst scale k_idx K = Done mem' /\
    (forall i, (0 <= i < klen)%Z -> Qabs (src (N * i)%Z) <= Qabs max) /\
    (max == 0 \/ exists k, (0 <= k < klen)%Z /\ max == src (N * k)%Z) /\
    (scale == 0 -> recip = 0) /\ (~ scale == 0 -> recip = 1 / scale) /\
    (forall i, (0 <= i < klen)%Z ->
       mem' !! Z.to_nat (dst + i)
       = Some (scale * (inject_Z (clamp_u4 (src (N * i)%Z * recip + (17 # 2)))
                        - inject_Z 8))) /\
    length blob' = length main_blob.
Proof.
  pose proof (valid_block_int32 _ _ _ _ Hvalid) as Hbs.
  destruct Hvalid as (Hpos & Hmod & Hlen & Hk0 & Hk & HK & Hovf).
  destruct (quant_char block_size Hpos Hmod Hbs main_blob Hlen src k_idx K N
              Hk0 Hk HK)
    as (amax & max & recip & blob' & E & Hamax & Hrows & Er & Hl & _ & Hun).
  cbv zeta in E, Er. unfold float in amax, max, recip.
  set (scale := max / - (8)) in *.
  destruct (dequant_zp_spec block_size Hmod blob'
              ltac:(rewrite Hl; exact Hlen) dst scale 8
              k_idx K Hk0 Hovf Hdst mem Hmem) as (mem' & Ed & _ & Hd).
  destruct (reciprocal_spec scale) as (recip' & Er' & Hr0 & Hr1).
  rewrite Er in Er'. injection Er' as <-.
  exists max, recip, blob', mem'. cbv zeta. fold scale.
  split; [exact E |]. split; [exact Ed |].
  split.
  { intros i Hi. specialize (Hrows i Hi). rewrite fabsf_Qabs in Hrows, Hamax. lra. }
  split.
  { destruct (quant_selected _ _ E) as (max' & Hs' & Hsel).
    assert (max == max') as Hmax.
    { assert (max / - (8) == max' / - (8)) as Hq by (fold scale; rewrite Hs'; reflexivity).
      unfold Qdiv in Hq. change (/ - (8)) with (-1 # 8) in Hq. lra. }
    destruct Hsel as [-> | (k & Hk' & ->)]; [left; exact Hmax | right].
    exists k. split; [| exact Hmax].
    apply elem_of_for_range_1 in Hk'.
    rewrite sub32_small in Hk' by (unfold INT32_MIN, INT32_MAX in *; lia).
    exact Hk'. }
  split; [exact Hr0 |]. split; [exact Hr1 |].
  split; [| exact Hl].
  intros i Hi. rewrite Hd.
  assert (dequant_written block_size dst k_idx K (Z.to_nat (dst + i)) = true) as ->.
  { unfold dequant_written. rewrite !andb_true_iff, Z.leb_le, !Z.ltb_lt. lia. }
  unfold dequant_value.
  replace (Z.of_nat (Z.to_nat (dst + i)) - dst)%Z with i by lia.
  rewrite (Hun i) by zlia.
  destruct (Z.ltb_spec i klen) as [_ | ?]; [reflexivity | lia].
Qed.
End DecodeFacts.

Section BlockExtras.
Local Open Scope Q_scope.
Context `{Platform}.



End BlockExtras.

Section OverrunFacts.
Local Open Scope Z_scope.

Lemma for_each_app {S} (ks1 ks2 : list Z) (body : Z -> S -> result S) (s : S) :
  for_each (ks1 ++ ks2) body s
  = do s' <- for_each ks1 body s; for_each ks2 body s'.
Proof.
  revert s. induction ks1 as [| k ks1 IH]; intros s; simpl; [reflexivity |].
  destruct (body k s) as [s1 | f]; simpl; [apply IH | reflexivity].
Qed.

(** A loop by steps of 2 that passes the even value [m]. *)
Lemma for_range_2_split (hi m : Z) :
  0 <= m < hi -> m mod 2 = 0 ->
  exists rest, for_range 0 hi 2 = for_range 0 m 2 ++ m :: rest.
Proof.
  intros Hm Heven. rewrite !for_range_0.
  replace (Z.to_nat ((hi + 2 - 1) / 2))
    with (Z.to_nat ((m + 2 - 1) / 2)
          + S (Z.to_nat ((hi + 2 - 1) / 2) - Z.to_nat ((m + 2 - 1) / 2) - 1))%nat
    by zlia.
  rewrite seq_app, map_app. cbn [seq map]. eexists. f_equal. f_equal. zlia.
Qed.

(** The packing loop of [quant] run past the end of the block. *)
Lemma pack_loop_overrun (val : Z -> Z)
    (body : Z -> list Z -> result (list Z)) (hi : Z) (main_blob : list Z) :
  (forall kk b, body kk b = store b (Z.quot kk 2) (val kk)) ->
  2 * Z.of_nat (length main_blob) < hi ->
  for_each (for_range 0 hi 2) body main_blob = Fault OutOfBounds.
Proof.
  intros Hbody Hhi.
  destruct (for_range_2_split hi (2 * Z.of_nat (length main_blob)))
    as (rest & ->); [lia | zlia |].
  rewrite for_each_app.
  destruct (pack_loop_spec val body (2 * Z.of_nat (length main_blob)) main_blob Hbody)
    as (b' & -> & Hlen & _); [lia |].
  simpl. rewrite Hbody. unfold store.
  destruct (Z.ltb_spec (Z.quot (2 * Z.of_nat (length main_blob)) 2)
              (Z.of_nat (length b'))) as [Hlt | _];
    [zlia |]. rewrite andb_false_r. reflexivity.
Qed.

(** A loop whose iterations run and keep the length of the array. *)
Lemma for_each_runs {A} (body : Z -> list A -> result (list A)) (len : nat)
    (ks : list Z) :
  (forall k s, k ∈ ks -> length s = len ->
     exists s', body k s = Done s' /\ length s' = len) ->
  forall s, length s = len ->
    exists s', for_each ks body s = Done s' /\ length s' = len.
Proof.
  induction ks as [| k ks IH]; intros Hbody s Hs.
  - exists s. simpl. auto.
  - destruct (Hbody k s) as (s1 & E1 & Hlen1); [left | assumption |].
    destruct (IH (fun k' s' Hk' => Hbody k' s' (list_elem_of_further _ _ _ Hk')) s1 Hlen1)
      as (s2 & E2 & Hlen2).
    exists s2. simpl. rewrite E1. simpl. auto.
Qed.
End OverrunFacts.

Section StaleFacts.
Local Open Scope Q_scope.
Context `{Platform}.

Variable block_size : Z.
Variables (blob1 blob2 : list Z) (src : Z -> float) (k_idx K N : Z).
Hypothesis Hvalid : valid_block block_size blob1 k_idx K.
Hypothesis Hlength : length blob2 = length blob1.

Lemma valid_block_length : valid_block block_size blob2 k_idx K.
Proof. unfold valid_block in *. rewrite Hlength. exact Hvalid. Qed.

Local Abbreviation klen := (Z.min block_size (K - k_idx)).

Lemma klen_loop_bounds :
  Z.min block_size (sub32 K k_idx) = klen /\ to_size_t klen = klen /\
  (0 <= klen <= 2 * Z.of_nat (length blob2))%Z.
Proof.
  destruct Hvalid as (Hpos & Hmod & Hlen & Hk0 & Hk & HK & Hovf).
  unfold INT32_MAX in *.
  rewrite sub32_small by (unfold INT32_MIN, INT32_MAX; lia).
  split; [reflexivity |]. split; [unfold to_size_t; apply Z.mod_small; lia |].
  rewrite Hlength. zlia.
Qed.

(** The scale and the zero-point [quant] returns do not depend on what
    the block holds. *)
Lemma quant_zp_blob_indep (scale : float) (zp : Z) (b1 : list Z) :
  quant_zp block_size blob1 src k_idx K N = Done (scale, zp, b1) ->
  exists b2, quant_zp block_size blob2 src k_idx K N = Done (scale, zp, b2).
Proof.
  destruct klen_loop_bounds as (Hk1 & Hk2 & Hk3).
  unfold quant_zp. rewrite Hk1, Hk2.
  destruct (fold_left _ _ _) as [min0 max0].
  destruct (reciprocal _) as [recip | ?]; simpl bind; [| discriminate].
  destruct (if negb _ then _ else _) as [zfp | ?]; simpl bind; [| discriminate].
  match goal with
  | |- context [for_each _ ?body blob2] =>
      destruct (for_each_runs body (length blob2) (for_range 0 klen 2))
        with (s := blob2) as (b2 & -> & _); [| reflexivity |]
  end.
  { intros kk b Hkk Hb. apply elem_of_for_range_2 in Hkk as [Hkk Hm].
    cbv beta zeta.
    match goal with
    | |- context [store b ?i ?x] =>
        destruct (store_spec b i x) as (b' & -> & Hb' & _); [zlia |]
    end.
    exists b'. split; [reflexivity | lia]. }
  destruct (for_each _ _ blob1) as [b1' | ?]; simpl bind; [| discriminate].
  intros E. injection E as <- <- <-. exists b2. reflexivity.
Qed.

Lemma quant_blob_indep (scale : float) (b1 : list Z) :
  quant block_size blob1 src k_idx K N = Done (scale, b1) ->
  exists b2, quant block_size blob2 src k_idx K N = Done (scale, b2).
Proof.
  destruct klen_loop_bounds as (Hk1 & Hk2 & Hk3).
  unfold quant. rewrite Hk1, Hk2.
  destruct (fold_left _ _ _) as [amax max].
  destruct (reciprocal _) as [recip | ?]; simpl bind; [| discriminate].
  match goal with
  | |- context [for_each _ ?body blob2] =>
      destruct (for_each_runs body (length blob2) (for_range 0 klen 2))
        with (s := blob2) as (b2 & -> & _); [| reflexivity |]
  end.
  { intros kk b Hkk Hb. apply elem_of_for_range_2 in Hkk as [Hkk Hm].
    cbv beta zeta.
    match goal with
    | |- context [store b ?i ?x] =>
        destruct (store_spec b i x) as (b' & -> & Hb' & _); [zlia |]
    end.
    exists b'. split; [reflexivity | lia]. }
  destruct (for_each _ _ blob1) as [b1' | ?]; simpl bind; [| discriminate].
  intros E. injection E as <- <-. exists b2. reflexivity.
Qed.
End StaleFacts.

Section BlockEdgeExtras.
Local Open Scope Q_scope.
Context `{Platform}.

Lemma Done_inj {A} (a b : A) : Done a = Done b -> a = b.
Proof. intros E. injection E. auto. Qed.

Lemma reciprocal_unique (scale r1 r2 : Q) :
  (scale == 0 -> r1 = 0) -> (~ scale == 0 -> r1 = 1 / scale) ->
  (scale == 0 -> r2 = 0) -> (~ scale == 0 -> r2 = 1 / scale) -> r1 = r2.
Proof.
  intros H10 H11 H20 H21. destruct (Qeq_dec scale 0) as [E | E].
  - rewrite (H10 E), (H20 E). reflexivity.
  - rewrite (H11 E), (H21 E). reflexivity.
Qed.

(** Two arrays that [dequant] writes with the same values at the rows
    of the block are equal. *)
Lemma dequant_same (block_size : Z) (b1 b2 : list Z) (mem m1 m2 : list float)
    (dst : Z) (scale : float) (zp k_idx K : Z) (val : Z -> Q) :
  (0 < block_size)%Z -> (block_size mod 8 = 0)%Z ->
  (Z.of_nat (length b1) = block_size / 2)%Z ->
  (Z.of_nat (length b2) = block_size / 2)%Z ->
  (0 <= k_idx)%Z -> (k_idx + block_size <= INT32_MAX)%Z -> (0 <= dst)%Z ->
  (dst + Z.min block_size (K - k_idx) <= Z.of_nat (length mem))%Z ->
  dequant_zp block_size b1 mem dst scale zp k_idx K = Done m1 ->
  dequant_zp block_size b2 mem dst scale zp k_idx K = Done m2 ->
  (forall i, (0 <= i < Z.min block_size (K - k_idx))%Z ->
     m1 !! Z.to_nat (dst + i) = Some (val i) /\
     m2 !! Z.to_nat (dst + i) = Some (val i)) ->
  m1 = m2.
Proof.
  intros Hpos Hmod Hl1 Hl2 Hk0 Hovf Hdst Hmem E1 E2 Hval.
  destruct (dequant_zp_spec block_size Hmod b1 Hl1 dst scale zp k_idx K
              Hk0 Hovf Hdst mem Hmem) as (m1' & E1' & _ & Hd1).
  destruct (dequant_zp_spec block_size Hmod b2 Hl2 dst scale zp k_idx K
              Hk0 Hovf Hdst mem Hmem) as (m2' & E2' & _ & Hd2).
  assert (m1' = m1) as -> by congruence. assert (m2' = m2) as -> by congruence.
  apply list_eq. intros j.
  destruct (dequant_written block_size dst k_idx K j) eqn:Hw.
  - unfold dequant_written in Hw.
    rewrite !andb_true_iff, Z.leb_le, !Z.ltb_lt in Hw.
    destruct (Hval (Z.of_nat j - dst)%Z ltac:(lia)) as [V1 V2].
    replace (Z.to_nat (dst + (Z.of_nat j - dst))) with j in V1, V2 by lia.
    exact (eq_trans V1 (eq_sym V2)).
  - rewrite Hd1, Hd2, Hw. reflexivity.
Qed.

(** X13.  The outcome of [quant] followed by [dequant] does not depend on
    what the block held before: started from two blocks of the same
    size that hold different bytes, [quant] returns the same scale and
    zero-point, and [dequant] of the two written blocks gives the same
    array, although the bytes after the valid rows of the two blocks
    differ. *)
Theorem quant_dequant_ignores_stale_bytes (block_size : Z)
    (blob1 blob2 : list Z) (src : Z -> float) (k_idx K N : Z)
    (mem : list float) (dst : Z) :
  valid_block block_size blob1 k_idx K -> length blob2 = length blob1 ->
  let klen := Z.min block_size (K - k_idx) in
  (0 <= dst)%Z -> (dst + klen <= Z.of_nat (length mem))%Z ->
  (exists scale zp b1 b2 mem',
     quant_zp block_size blob1 src k_idx K N = Done (scale, zp, b1) /\
     quant_zp block_size blob2 src k_idx K N = Done (scale, zp, b2) /\
     dequant_zp block_size b1 mem dst scale zp k_idx K = Done mem' /\
     dequant_zp block_size b2 mem dst scale zp k_idx K = Done mem') /\
  (exists scale b1 b2 mem',
     quant block_size blob1 src k_idx K N = Done (scale, b1) /\
     quant block_size blob2 src k_idx K N = Done (scale, b2) /\
     dequant block_size b1 mem dst scale k_idx K = Done mem' /\
     dequant block_size b2 mem dst scale k_idx K = Done mem').
Proof.
  intros Hv1 Hlen klen Hdst Hmem.
  pose proof (valid_block_length block_size blob1 blob2 k_idx K Hv1 Hlen) as Hv2.
  assert (forall scale zp b1 b2 m1 m2 (val : Z -> Q),
            length b1 = length blob1 -> length b2 = length blob1 ->
            dequant_zp block_size b1 mem dst scale zp k_idx K = Done m1 ->
            dequant_zp block_size b2 mem dst scale zp k_idx K = Done m2 ->
            (forall i, (0 <= i < klen)%Z ->
               m1 !! Z.to_nat (dst + i) = Some (val i) /\
               m2 !! Z.to_nat (dst + i) = Some (val i)) ->
            m1 = m2) as Hsame.
  { intros scale zp b1 b2 m1 m2 val Hb1 Hb2.
    destruct Hv1 as (Hpos & Hmod & Hl & Hk0 & Hk & HK & Hovf).
    apply (dequant_same block_size b1 b2 mem m1 m2 dst scale zp k_idx K val);
      auto; congruence. }
  split.
  - destruct (quant_zp_decode block_size blob1 src k_idx K N mem dst Hv1 Hdst Hmem)
      as (min1 & max1 & recip1 & zp1 & b1 & m1 & E1 & Ed1 & _ & Hr10 & Hr11 & _ & Hdec1 & Hl1).
    destruct (quant_zp_decode block_size blob2 src k_idx K N mem dst Hv2 Hdst Hmem)
      as (min2 & max2 & recip2 & zp2 & b2 & m2 & E2 & Ed2 & _ & Hr20 & Hr21 & _ & Hdec2 & Hl2).
    cbv zeta in *.
    destruct (quant_zp_blob_indep block_size blob1 blob2 src k_idx K N Hv1 Hlen _ _ _ E1)
      as (b2' & E2').
    rewrite E2 in E2'. apply Done_inj in E2'.
    pose proof (f_equal (fun x => fst (fst x)) E2') as Hs.
    pose proof (f_equal (fun x => snd (fst x)) E2') as Hzp.
    cbn [fst snd] in Hs, Hzp. subst zp2. clear E2'.
    rewrite Hs in *.
    pose proof (reciprocal_unique _ _ _ Hr10 Hr11 Hr20 Hr21) as <-.
    exists ((max1 - min1) / 15), zp1, b1, b2, m1.
    split; [exact E1 |]. split; [exact E2 |]. split; [exact Ed1 |].
    rewrite Ed2. f_equal. symmetry.
    eapply (Hsame _ _ b1 b2 m1 m2 _ Hl1 (eq_trans Hl2 Hlen) Ed1 Ed2).
    intros i Hi. split; [apply Hdec1 | apply Hdec2]; exact Hi.
  - destruct (quant_decode block_size blob1 src k_idx K N mem dst Hv1 Hdst Hmem)
      as (max1 & recip1 & b1 & m1 & E1 & Ed1 & _ & _ & Hr10 & Hr11 & Hdec1 & Hl1).
    destruct (quant_decode block_size blob2 src k_idx K N mem dst Hv2 Hdst Hmem)
      as (max2 & recip2 & b2 & m2 & E2 & Ed2 & _ & _ & Hr20 & Hr21 & Hdec2 & Hl2).
    cbv zeta in *.
    destruct (quant_blob_indep block_size blob1 blob2 src k_idx K N Hv1 Hlen _ _ E1)
      as (b2' & E2').
    rewrite E2 in E2'. apply Done_inj in E2'.
    pose proof (f_equal fst E2') as Hs.
    cbn [fst snd] in Hs. clear E2'.
    rewrite Hs in *.
    pose proof (reciprocal_unique _ _ _ Hr10 Hr11 Hr20 Hr21) as <-.
    exists (max1 / - (8)), b1, b2, m1.
    split; [exact E1 |]. split; [exact E2 |]. split; [exact Ed1 |].
    unfold dequant in *. rewrite Ed2. f_equal. symmetry.
    eapply (Hsame _ _ b1 b2 m1 m2 _ Hl1 (eq_trans Hl2 Hlen) Ed1 Ed2).
    intros i Hi. split; [apply Hdec1 | apply Hdec2]; exact Hi.
Qed.

(** X14.  [quant] takes [k_idx <= K] for granted.  With [K < k_idx] the
    number of valid rows [klen] is negative; the loop that scans the
    rows does not run, but the loop that packs them compares its
    [size_t] counter with [klen] converted to [size_t], a value near
    [2^64], and runs past the end of [main_blob]: both overloads stop at
    the write of byte [block_size / 2]. *)
Theorem quant_row_past_end (block_size : Z) (main_blob : list Z)
    (src : Z -> float) (k_idx K N : Z) :
  (0 < block_size)%Z -> (block_size mod 8 = 0)%Z ->
  (block_size <= INT32_MAX)%Z ->
  (Z.of_nat (length main_blob) = block_size / 2)%Z ->
  (K < k_idx)%Z -> (INT32_MIN <= K - k_idx)%Z ->
  quant_zp block_size main_blob src k_idx K N = Fault OutOfBounds /\
  quant block_size main_blob src k_idx K N = Fault OutOfBounds.
Proof.
  intros Hpos Hmod Hbs Hlen HK Hovf.
  assert (Z.min block_size (sub32 K k_idx) = K - k_idx)%Z as Hklen.
  { rewrite sub32_small by (unfold INT32_MIN, INT32_MAX in *; lia). lia. }
  assert (2 * Z.of_nat (length main_blob) < to_size_t (K - k_idx))%Z as Hsize.
  { unfold to_size_t, INT32_MIN, INT32_MAX in *.
    change (2 ^ 64)%Z with 18446744073709551616%Z.
    change (2 ^ 31)%Z with 2147483648%Z in *. zlia. }
  assert (for_range 0 (K - k_idx) 1 = []) as Hrows.
  { unfold for_range. replace (Z.to_nat ((K - k_idx - 0 + 1 - 1) / 1)) with 0%nat by zlia.
    reflexivity. }
  split.
  - unfold quant_zp. rewrite Hklen, Hrows. cbn [fold_left].
    destruct (reciprocal_spec ((std_max (src 0%Z) 0 - std_min (src 0%Z) 0) / 15))
      as (recip & -> & _). simpl bind.
    assert (exists zfp,
              (if negb (Qeq_bool ((std_max (src 0%Z) 0 - std_min (src 0%Z) 0) / 15) 0)
               then do q <- checked_div (std_min (src 0%Z) 0)
                              ((std_max (src 0%Z) 0 - std_min (src 0%Z) 0) / 15);
                    Done (0 - q)
               else Done (std_min (src 0%Z) 0)) = Done zfp) as (zfp & ->).
    { unfold checked_div. destruct (Qeq_bool _ 0); simpl; eauto. }
    simpl bind.
    match goal with
    | |- context [for_each _ ?body main_blob] =>
        erewrite (pack_loop_overrun _ body); [reflexivity | | exact Hsize]
    end.
    intros kk b. cbv beta zeta. reflexivity.
  - unfold quant. rewrite Hklen, Hrows. cbn [fold_left].
    rewrite reciprocal_zero by reflexivity. simpl bind.
    match goal with
    | |- context [for_each _ ?body main_blob] =>
        erewrite (pack_loop_overrun _ body); [reflexivity | | exact Hsize]
    end.
    intros kk b. cbv beta zeta. reflexivity.
Qed.
End BlockEdgeExtras.




(** A partial block of 3 rows written into a block of zeros and into a
    block of ones. *)
Lemma quant_dequant_ignores_stale_bytes_witness :
  (exists scale zp b1 b2 mem',
     quant_zp (H := x86_64) 8 [0; 0; 0; 0] (src_of_list [8; - (7); 2]%Q) 0 3 1
     = Done (scale, zp, b1) /\
     quant_zp (H := x86_64) 8 [255; 255; 255; 255]
       (src_of_list [8; - (7); 2]%Q) 0 3 1
     = Done (scale, zp, b2) /\
     dequant_zp 8 b1 [0; 0; 0]%Q 0 scale zp 0 3 = Done mem' /\
     dequant_zp 8 b2 [0; 0; 0]%Q 0 scale zp 0 3 = Done mem') /\
  (exists scale b1 b2 mem',
     quant (H := x86_64) 8 [0; 0; 0; 0] (src_of_list [8; - (7); 2]%Q) 0 3 1
     = Done (scale, b1) /\
     quant (H := x86_64) 8 [255; 255; 255; 255]
       (src_of_list [8; - (7); 2]%Q) 0 3 1
     = Done (scale, b2) /\
     dequant 8 b1 [0; 0; 0]%Q 0 scale 0 3 = Done mem' /\
     dequant 8 b2 [0; 0; 0]%Q 0 scale 0 3 = Done mem').
Proof.
  apply (quant_dequant_ignores_stale_bytes (H := x86_64) 8 [0; 0; 0; 0]
           [255; 255; 255; 255] (src_of_list [8; - (7); 2]%Q) 0 3 1
           [0; 0; 0]%Q 0).
  - unfold valid_block. repeat split; vm_compute; congruence.
  - reflexivity.
  - lia.
  - simpl. lia.
Defined.

(** A call for the block that starts at row 8 of a column of 3 rows. *)
Lemma quant_row_past_end_witness :
  quant_zp (H := x86_64) 8 [0; 0; 0; 0] (src_of_list [8; - (7); 2]%Q) 8 3 1
  = Fault OutOfBounds /\
  quant (H := x86_64) 8 [0; 0; 0; 0] (src_of_list [8; - (7); 2]%Q) 8 3 1
  = Fault OutOfBounds.
Proof.
  apply (quant_row_past_end (H := x86_64) 8 [0; 0; 0; 0]
           (src_of_list [8; - (7); 2]%Q) 8 3 1);
    try reflexivity; vm_compute; congruence.
Defined.

Section ScaleZero.
Local Open Scope Q_scope.
Context `{Platform}.




End ScaleZero.


(** ** qnn_utils.h: [InvertPerm] and [PermuteShape] *)

Section StatusLoopFacts.
Local Open Scope Z_scope.

Lemma for_each_status_app {S} (ks1 ks2 : list Z)
    (body : Z -> S -> result (S * Status unit)) (s : S) :
  for_each_status (ks1 ++ ks2) body s
  = do r <- for_each_status ks1 body s;
    match snd r with
    | OK _ => for_each_status ks2 body (fst r)
    | Failed msg => Done (fst r, Failed msg)
    end.
Proof.
  revert s. induction ks1 as [| k ks1 IH]; intros s; simpl; [reflexivity |].
  destruct (body k s) as [[s1 [[] | msg]] | f]; simpl; [apply IH | reflexivity ..].
Qed.

(** The values of a loop counter that goes up by 1 from 0. *)
Lemma for_range_1_nat (n : nat) :
  for_range 0 (Z.of_nat n) 1 = map Z.of_nat (seq 0 n).
Proof.
  rewrite for_range_0.
  replace (Z.to_nat ((Z.of_nat n + 1 - 1) / 1)) with n by zlia.
  apply map_ext. intros a. lia.
Qed.

Lemma for_range_1_S (n : nat) :
  for_range 0 (Z.of_nat (S n)) 1 = for_range 0 (Z.of_nat n) 1 ++ [Z.of_nat n].
Proof. rewrite !for_range_1_nat, seq_S, map_app. reflexivity. Qed.

Lemma for_range_1_split (n i : nat) :
  (i < n)%nat ->
  exists rest,
    for_range 0 (Z.of_nat n) 1 = for_range 0 (Z.of_nat i) 1 ++ Z.of_nat i :: rest.
Proof.
  intros Hi. rewrite !for_range_1_nat.
  assert (seq 0 n = seq 0 i ++ i :: seq (S i) (n - i - 1)) as ->.
  { replace n with (i + S (n - i - 1))%nat at 1 by lia.
    rewrite (seq_app i). reflexivity. }
  rewrite map_app. cbn [map]. eexists. reflexivity.
Qed.

(** The first element of a list of indices that is out of range. *)
Lemma first_out_of_range (rank : Z) (l : list Z) :
  ~ Forall (fun p => 0 <= p < rank) l ->
  exists (i : nat) (p : Z),
    l !! i = Some p /\ ~ (0 <= p < rank) /\
    forall (i' : nat) (p' : Z), (i' < i)%nat -> l !! i' = Some p' -> 0 <= p' < rank.
Proof.
  induction l as [| x l IH]; intros Hl; [exfalso; apply Hl; constructor |].
  destruct (decide (0 <= x < rank)) as [Hx | Hx].
  - destruct IH as (i & p & Hi & Hp & Hpre).
    { intros Hall. apply Hl. constructor; assumption. }
    exists (S i), p. split; [exact Hi |]. split; [exact Hp |].
    intros [| i'] p' Hlt E; simpl in E; [congruence | apply (Hpre i'); [lia | exact E]].
  - exists 0%nat, x. split; [reflexivity |]. split; [exact Hx |]. intros; lia.
Qed.
End StatusLoopFacts.

Section InvertPermFacts.
Local Open Scope Z_scope.

Variables (signed : bool) (bits : Z).
Variables (perm perm_inv : list Z).

Local Abbreviation rank := (Z.of_nat (length perm)).
Local Abbreviation lo := (fst (int_limits signed bits)).
Local Abbreviation hi := (snd (int_limits signed bits)).

Hypothesis bits_range : 0 < bits <= 64.
Hypothesis perm_typed : Forall (fun p => lo <= p <= hi) perm.
Hypothesis rank_fits : rank <= hi + 1.
Hypothesis same_size : length perm_inv = length perm.

Local Abbreviation body :=
  (fun (i : Z) (perm_inv : list Z) =>
     do p <- load perm i;
     let j := to_size_t p in
     if negb (j <? rank)
     then Done (perm_inv, Failed "perm element out of range [0, rank - 1]")
     else
       do perm_inv <- store perm_inv j (to_IntType signed bits i);
       Done (perm_inv, OK tt)).

Lemma int_limits_range :
  - 2 ^ 63 <= lo <= 0 /\ 0 <= hi < 2 ^ 64 /\ (lo < 0 -> hi < 2 ^ 63).
Proof.
  unfold int_limits.
  assert (2 ^ (bits - 1) <= 2 ^ 63) by (apply Z.pow_le_mono_r; lia).
  assert (2 ^ bits <= 2 ^ 64) by (apply Z.pow_le_mono_r; lia).
  assert (0 < 2 ^ (bits - 1)) by (apply Z.pow_pos_nonneg; lia).
  assert (0 < 2 ^ bits) by (apply Z.pow_pos_nonneg; lia).
  change (2 ^ 63) with 9223372036854775808 in *.
  change (2 ^ 64) with 18446744073709551616 in *.
  destruct signed; simpl; lia.
Qed.

(** The range check on an element converted to [size_t]. *)
Lemma index_check (p : Z) :
  lo <= p <= hi ->
  ((to_size_t p <? rank) = true <-> 0 <= p < rank) /\
  (0 <= p < rank -> to_size_t p = p).
Proof.
  intros Hp. pose proof int_limits_range as (Hlo & Hhi & Hs).
  unfold to_size_t. rewrite Z.ltb_lt.
  change (2 ^ 63) with 9223372036854775808 in *.
  change (2 ^ 64) with 18446744073709551616 in *.
  split; [| intros; apply Z.mod_small; lia].
  destruct (Z_lt_le_dec p 0).
  - split; [| lia]. intros Hlt. exfalso. zlia.
  - rewrite Z.mod_small by lia. lia.
Qed.

(** An index of the span is a value of [IntType]. *)
Lemma to_IntType_index (i : Z) : 0 <= i < rank -> to_IntType signed bits i = i.
Proof.
  intros Hi. pose proof int_limits_range as (Hlo & Hhi & _).
  unfold to_IntType, reduce. destruct (int_limits signed bits) as [l h].
  simpl in *. rewrite Z.mod_small; lia.
Qed.

(** The loop of [InvertPerm] over a prefix of [perm] whose elements are
    in range: slot [perm[i]] holds the last index [i] with that
    element, and a slot that is no element of the prefix is as it
    was. *)
Lemma InvertPerm_prefix (n : nat) :
  (n <= length perm)%nat ->
  (forall (i : nat) p, (i < n)%nat -> perm !! i = Some p -> 0 <= p < rank) ->
  exists out,
    for_each_status (for_range 0 (Z.of_nat n) 1) body perm_inv = Done (out, OK tt) /\
    length out = length perm /\
    (forall (i : nat) p, (i < n)%nat -> perm !! i = Some p ->
       (forall (i' : nat) p', (i < i' < n)%nat -> perm !! i' = Some p' -> p' <> p) ->
       out !! Z.to_nat p = Some (Z.of_nat i)) /\
    (forall j : nat,
       (forall (i : nat) p, (i < n)%nat -> perm !! i = Some p -> Z.to_nat p <> j) ->
       out !! j = perm_inv !! j).
Proof.
  induction n as [| n IH]; intros Hn Hgood.
  - exists perm_inv. split; [reflexivity |]. split; [exact same_size |].
    split; intros; [lia | reflexivity].
  - destruct IH as (out & E & Hlen & Ha & Hb); [lia | intros i q Hi Eq; apply (Hgood i q); [lia | exact Eq] |].
    destruct (lookup_lt_is_Some_2 perm n ltac:(lia)) as [p Ep].
    pose proof (Hgood n p ltac:(lia) Ep) as Hp.
    assert (lo <= p <= hi) as Htp.
    { exact (Forall_lookup_1 _ _ _ _ perm_typed Ep). }
    destruct (index_check p Htp) as [Hchk Hsz].
    rewrite for_range_1_S, for_each_status_app, E. cbn [bind fst snd for_each_status].
    rewrite (load_spec perm (Z.of_nat n) 0) by lia.
    rewrite Nat2Z.id, Ep. cbn [default bind]. change (id p) with p.
    rewrite (proj2 Hchk Hp). cbn [negb].
    rewrite (Hsz Hp), to_IntType_index by lia.
    destruct (store_spec out p (Z.of_nat n)) as (out' & -> & Hlen' & Hout'); [lia |].
    cbn [bind fst snd]. exists out'. split; [reflexivity |]. split; [lia |]. split.
    + intros i q Hi Eq Hlast. rewrite Hout'.
      destruct (Z.eqb_spec (Z.of_nat (Z.to_nat q)) p) as [Hqp | Hqp].
      * destruct (Nat.eq_dec i n) as [-> | Hne]; [reflexivity |].
        exfalso. apply (Hlast n p); [lia | exact Ep |].
        pose proof (Hgood i q Hi Eq). lia.
      * apply (Ha i q); [| exact Eq |].
        -- destruct (Nat.eq_dec i n) as [-> | Hne]; [| lia].
           rewrite Ep in Eq. injection Eq as <-. lia.
        -- intros i' p' Hi' Ep'. apply (Hlast i' p'); [lia | exact Ep'].
    + intros j Hj. rewrite Hout'.
      destruct (Z.eqb_spec (Z.of_nat j) p) as [Hjp | Hjp].
      * exfalso. apply (Hj n p); [lia | exact Ep | lia].
      * apply Hb. intros i q Hi Eq. apply (Hj i q); [lia | exact Eq].
Qed.

(** The loop of [InvertPerm] when an element is out of range: it stops
    at the first such element with the error. *)
Lemma InvertPerm_stops (i0 : nat) (p : Z) :
  perm !! i0 = Some p -> ~ (0 <= p < rank) ->
  (forall (i : nat) q, (i < i0)%nat -> perm !! i = Some q -> 0 <= q < rank) ->
  exists out,
    for_each_status (for_range 0 rank 1) body perm_inv
    = Done (out, Failed "perm element out of range [0, rank - 1]") /\
    length out = length perm.
Proof.
  intros Ep Hbad Hgood.
  pose proof (lookup_lt_Some _ _ _ Ep) as Hi0.
  destruct (for_range_1_split (length perm) i0 Hi0) as (rest & ->).
  destruct (InvertPerm_prefix i0 ltac:(lia) Hgood) as (out & E & Hlen & _).
  rewrite for_each_status_app, E. cbn [bind fst snd for_each_status].
  rewrite (load_spec perm (Z.of_nat i0) 0) by lia.
  rewrite Nat2Z.id, Ep. cbn [default bind]. change (id p) with p.
  assert (lo <= p <= hi) as Htp.
  { exact (Forall_lookup_1 _ _ _ _ perm_typed Ep). }
  destruct (index_check p Htp) as [Hchk _].
  destruct (to_size_t p <? rank) eqn:Hc; [exfalso; apply Hbad, Hchk; reflexivity |].
  cbn [negb bind fst snd]. exists out. split; [reflexivity | exact Hlen].
Qed.
End InvertPermFacts.

Section InvertPermSpec.
Local Open Scope Z_scope.

Variables (signed : bool) (bits : Z).

Local Abbreviation lo := (fst (int_limits signed bits)).
Local Abbreviation hi := (snd (int_limits signed bits)).

(** [InvertPerm] on elements that are all in range. *)
Lemma InvertPerm_in_range (perm perm_inv : list Z) :
  0 < bits <= 64 -> Forall (fun p => lo <= p <= hi) perm ->
  Z.of_nat (length perm) <= hi + 1 ->
  length perm_inv = length perm ->
  Forall (fun p => 0 <= p < Z.of_nat (length perm)) perm ->
  exists out,
    InvertPerm signed bits perm perm_inv = Done (out, OK tt) /\
    length out = length perm /\
    (forall (i : nat) p, perm !! i = Some p ->
       (forall i' : nat, (i < i')%nat -> perm !! i' <> Some p) ->
       out !! Z.to_nat p = Some (Z.of_nat i)) /\
    (forall j : nat, Z.of_nat j ∉ perm -> out !! j = perm_inv !! j).
Proof.
  intros Hbits Htyped Hrank Hlen Hgood. unfold InvertPerm.
  rewrite Hlen, Z.eqb_refl. cbn [negb].
  destruct (InvertPerm_prefix signed bits perm perm_inv Hbits Htyped Hrank Hlen
              (length perm) ltac:(lia))
    as (out & E & Hl & Ha & Hb).
  { intros i p _ Ep. exact (Forall_lookup_1 _ _ _ _ Hgood Ep). }
  exists out. split; [exact E |]. split; [exact Hl |]. split.
  - intros i p Ep Hlast. apply (Ha i p); [eapply lookup_lt_Some; exact Ep | exact Ep |].
    intros i' p' Hi' Ep' ->. apply (Hlast i'); [lia | exact Ep'].
  - intros j Hj. apply Hb. intros i p _ Ep Hpj. apply Hj.
    pose proof (Forall_lookup_1 _ _ _ _ Hgood Ep) as Hp. cbv beta in Hp.
    replace (Z.of_nat j) with p by lia.
    eapply list_elem_of_lookup_2. exact Ep.
Qed.

(** [InvertPerm] on a permutation of [0, ..., rank - 1]. *)
Lemma InvertPerm_perm_spec (perm perm_inv : list Z) :
  0 < bits <= 64 -> Forall (fun p => lo <= p <= hi) perm ->
  Z.of_nat (length perm) <= hi + 1 ->
  length perm_inv = length perm ->
  perm ≡ₚ seqZ 0 (Z.of_nat (length perm)) ->
  exists out,
    InvertPerm signed bits perm perm_inv = Done (out, OK tt) /\
    length out = length perm /\
    (forall i j : nat, perm !! i = Some (Z.of_nat j) -> out !! j = Some (Z.of_nat i)) /\
    (forall (j : nat) x, out !! j = Some x ->
       exists i : nat, x = Z.of_nat i /\ perm !! i = Some (Z.of_nat j)).
Proof.
  intros Hbits Htyped Hrank Hlen Hperm.
  assert (NoDup perm) as Hnd by (rewrite Hperm; apply NoDup_seqZ).
  assert (Forall (fun p => 0 <= p < Z.of_nat (length perm)) perm) as Hgood.
  { apply Forall_forall. intros p Hp. rewrite Hperm in Hp.
    apply elem_of_seqZ in Hp. lia. }
  destruct (InvertPerm_in_range perm perm_inv Hbits Htyped Hrank Hlen Hgood)
    as (out & E & Hl & Ha & _).
  assert (forall i j : nat, perm !! i = Some (Z.of_nat j) ->
            out !! j = Some (Z.of_nat i)) as H1.
  { intros i j Ep. rewrite <- (Nat2Z.id j). apply (Ha i _ Ep).
    intros i' Hi' Ep'. pose proof (NoDup_lookup _ _ _ _ Hnd Ep Ep'). lia. }
  exists out. split; [exact E |]. split; [exact Hl |]. split; [exact H1 |].
  intros j x Ej. pose proof (lookup_lt_Some _ _ _ Ej) as Hj.
  assert (Z.of_nat j ∈ perm) as Hin by (rewrite Hperm; apply elem_of_seqZ; lia).
  apply list_elem_of_lookup_1 in Hin as [i Ep].
  exists i. split; [| exact Ep]. pose proof (H1 i j Ep). congruence.
Qed.

(** A list that holds the inverse of a permutation is a permutation. *)
Lemma inverse_is_permutation (perm out : list Z) :
  length out = length perm ->
  (forall (j : nat) x, out !! j = Some x ->
     exists i : nat, x = Z.of_nat i /\ perm !! i = Some (Z.of_nat j)) ->
  out ≡ₚ seqZ 0 (Z.of_nat (length out)).
Proof.
  intros Hl H2. apply submseteq_length_Permutation.
  - apply NoDup_submseteq.
    + apply NoDup_alt. intros j1 j2 x E1 E2.
      destruct (H2 j1 x E1) as (i1 & -> & Ep1).
      destruct (H2 j2 _ E2) as (i2 & Hi & Ep2).
      apply Nat2Z.inj in Hi. subst i2. rewrite Ep1 in Ep2. injection Ep2. lia.
    + intros x Hx. apply list_elem_of_lookup_1 in Hx as [j Ej].
      destruct (H2 j x Ej) as (i & -> & Ep).
      pose proof (lookup_lt_Some _ _ _ Ep). apply elem_of_seqZ. lia.
  - rewrite length_seqZ. lia.
Qed.
End InvertPermSpec.

Section InvertPermExtras.
Local Open Scope Z_scope.

(** X16.  [InvertPerm] never faults and keeps the size of [perm_inv]; it
    returns [OK] exactly when the two spans have the same size and every
    element of [perm] lies in [[0, rank - 1]].  A negative element is
    rejected: converted to [size_t] it is not below [rank]. *)
Theorem InvertPerm_status (signed : bool) (bits : Z) (perm perm_inv : list Z) :
  0 < bits <= 64 ->
  Forall (fun p => fst (int_limits signed bits) <= p <= snd (int_limits signed bits))
         perm ->
  Z.of_nat (length perm) <= snd (int_limits signed bits) + 1 ->
  exists out st,
    InvertPerm signed bits perm perm_inv = Done (out, st) /\
    length out = length perm_inv /\
    (st = OK tt <->
     length perm_inv = length perm /\
     Forall (fun p => 0 <= p < Z.of_nat (length perm)) perm).
Proof.
  intros Hbits Htyped Hrank.
  destruct (decide (length perm_inv = length perm)) as [Hlen | Hlen].
  - destruct (decide (Forall (fun p => 0 <= p < Z.of_nat (length perm)) perm))
      as [Hgood | Hbad].
    + destruct (InvertPerm_in_range signed bits perm perm_inv
                  Hbits Htyped Hrank Hlen Hgood) as (out & E & Hl & _).
      exists out, (OK tt). split; [exact E |]. split; [congruence |].
      split; auto.
    + destruct (first_out_of_range _ _ Hbad) as (i0 & p & Ep & Hp & Hpre).
      destruct (InvertPerm_stops signed bits perm perm_inv Hbits Htyped Hrank Hlen
                  i0 p Ep Hp Hpre) as (out & E & Hl).
      eexists out, _. unfold InvertPerm. rewrite Hlen, Z.eqb_refl. cbn [negb].
      split; [exact E |]. split; [congruence |].
      split; [discriminate | intros [_ Hgood]; contradiction].
  - exists perm_inv. eexists. unfold InvertPerm.
    destruct (Z.eqb_spec (Z.of_nat (length perm_inv)) (Z.of_nat (length perm)));
      [lia |]. cbn [negb].
    split; [reflexivity |]. split; [reflexivity |].
    split; [discriminate | intros [? _]; contradiction].
Qed.

(** X17.  [InvertPerm] does not check that [perm] is a permutation.  When the
    elements are in range, repeated or not, it returns [OK]: the slot
    of an element holds the index of its last occurrence, and a slot
    whose index does not occur in [perm] keeps what [perm_inv] held. *)
Theorem InvertPerm_repeated_elements (signed : bool) (bits : Z)
    (perm perm_inv : list Z) :
  0 < bits <= 64 ->
  Forall (fun p => fst (int_limits signed bits) <= p <= snd (int_limits signed bits))
         perm ->
  Z.of_nat (length perm) <= snd (int_limits signed bits) + 1 ->
  length perm_inv = length perm ->
  Forall (fun p => 0 <= p < Z.of_nat (length perm)) perm ->
  exists out,
    InvertPerm signed bits perm perm_inv = Done (out, OK tt) /\
    length out = length perm_inv /\
    (forall (i : nat) p, perm !! i = Some p ->
       (forall i' : nat, (i < i')%nat -> perm !! i' <> Some p) ->
       out !! Z.to_nat p = Some (Z.of_nat i)) /\
    (forall j : nat, Z.of_nat j ∉ perm -> out !! j = perm_inv !! j).
Proof.
  intros Hbits Htyped Hrank Hlen Hgood.
  destruct (InvertPerm_in_range signed bits perm perm_inv
              Hbits Htyped Hrank Hlen Hgood) as (out & E & Hl & Ha & Hb).
  exists out. split; [exact E |]. split; [congruence |]. split; assumption.
Qed.

(** X18.  On a permutation of [0, ..., rank - 1], [InvertPerm] returns [OK]
    and writes the inverse permutation: [perm_inv[j] = i] exactly when
    [perm[i] = j], whatever [perm_inv] held, and [perm_inv] is a
    permutation of [0, ..., rank - 1] again. *)
Theorem InvertPerm_inverse (signed : bool) (bits : Z) (perm perm_inv : list Z) :
  0 < bits <= 64 ->
  Forall (fun p => fst (int_limits signed bits) <= p <= snd (int_limits signed bits))
         perm ->
  Z.of_nat (length perm) <= snd (int_limits signed bits) + 1 ->
  length perm_inv = length perm ->
  perm ≡ₚ seqZ 0 (Z.of_nat (length perm)) ->
  exists out,
    InvertPerm signed bits perm perm_inv = Done (out, OK tt) /\
    out ≡ₚ seqZ 0 (Z.of_nat (length perm)) /\
    forall i j : nat,
      perm !! i = Some (Z.of_nat j) <-> out !! j = Some (Z.of_nat i).
Proof.
  intros Hbits Htyped Hrank Hlen Hperm.
  destruct (InvertPerm_perm_spec signed bits perm perm_inv
              Hbits Htyped Hrank Hlen Hperm) as (out & E & Hl & H1 & H2).
  exists out. split; [exact E |]. split.
  - rewrite <- Hl. apply (inverse_is_permutation perm out Hl H2).
  - intros i j. split; [apply H1 |]. intros Ej.
    destruct (H2 j _ Ej) as (i' & Hi & Ep). apply Nat2Z.inj in Hi. subst i'. exact Ep.
Qed.

(** X19.  Inverting twice gives the permutation back: on a permutation of
    [0, ..., rank - 1], [InvertPerm] applied to what [InvertPerm] wrote
    writes [perm] itself. *)
Theorem InvertPerm_involutive (signed : bool) (bits : Z)
    (perm perm_inv buffer : list Z) :
  0 < bits <= 64 ->
  Forall (fun p => fst (int_limits signed bits) <= p <= snd (int_limits signed bits))
         perm ->
  Z.of_nat (length perm) <= snd (int_limits signed bits) + 1 ->
  length perm_inv = length perm -> length buffer = length perm ->
  perm ≡ₚ seqZ 0 (Z.of_nat (length perm)) ->
  exists out,
    InvertPerm signed bits perm perm_inv = Done (out, OK tt) /\
    InvertPerm signed bits out buffer = Done (perm, OK tt).
Proof.
  intros Hbits Htyped Hrank Hlen Hbuf Hperm.
  destruct (InvertPerm_perm_spec signed bits perm perm_inv
              Hbits Htyped Hrank Hlen Hperm) as (out & E & Hl & H1 & H2).
  exists out. split; [exact E |].
  pose proof (inverse_is_permutation perm out Hl H2) as Hout.
  pose proof (int_limits_range signed bits perm perm_inv Hbits Htyped Hrank Hlen)
    as (Hlo & _).
  destruct (InvertPerm_perm_spec signed bits out buffer Hbits) as (out2 & E2 & Hl2 & H1' & _);
    [| rewrite Hl; exact Hrank | congruence | exact Hout |].
  { apply Forall_lookup_2. intros j x Ej. destruct (H2 j x Ej) as (i & -> & Ep).
    pose proof (lookup_lt_Some _ _ _ Ep). lia. }
  rewrite E2. do 2 f_equal. apply list_eq. intros i.
  destruct (perm !! i) as [p |] eqn:Ep.
  - assert (p ∈ seqZ 0 (Z.of_nat (length perm))) as Hp
      by (rewrite <- Hperm; eapply list_elem_of_lookup_2; exact Ep).
    apply elem_of_seqZ in Hp.
    rewrite <- (Z2Nat.id p) in Ep by lia.
    rewrite (H1' _ _ (H1 _ _ Ep)). rewrite Z2Nat.id by lia. reflexivity.
  - apply lookup_ge_None in Ep. apply lookup_ge_None. lia.
Qed.
End InvertPermExtras.

Section PermuteShapeFacts.
Local Open Scope Z_scope.

(** A loop in which some iteration faults whatever the array holds. *)
Lemma for_each_fault {A} (body : Z -> list A -> result (list A)) (len : nat)
    (ks : list Z) :
  (forall k s, k ∈ ks -> length s = len ->
     (exists s', body k s = Done s' /\ length s' = len) \/
     body k s = Fault OutOfBounds) ->
  (exists k, k ∈ ks /\ forall s, length s = len -> body k s = Fault OutOfBounds) ->
  forall s, length s = len -> for_each ks body s = Fault OutOfBounds.
Proof.
  induction ks as [| k ks IH]; intros Hbody (k0 & Hk0 & Hbad) s Hs.
  - inversion Hk0.
  - simpl. destruct (Hbody k s) as [(s' & E & Hs') | E]; [left | exact Hs | |];
      rewrite E; simpl; [| reflexivity].
    apply IH; [| | exact Hs'].
    + intros k' s'' Hk'. apply Hbody. right. exact Hk'.
    + apply elem_of_cons in Hk0 as [-> | Hk0]; [| exists k0; split; assumption].
      rewrite (Hbad s Hs) in E. discriminate.
Qed.

Lemma to_size_t_range (p : Z) : 0 <= to_size_t p < 2 ^ 64.
Proof. unfold to_size_t. apply Z.mod_pos_bound. reflexivity. Qed.

Lemma to_size_t_small (p : Z) : 0 <= p < 2 ^ 64 -> to_size_t p = p.
Proof. intros Hp. unfold to_size_t. apply Z.mod_small. exact Hp. Qed.

Variables (input_shape perm output_shape : list Z).

Local Abbreviation rank := (Z.of_nat (length input_shape)).

Hypothesis perm_size : length perm = length input_shape.
Hypothesis output_size : length output_shape = length input_shape.

Local Abbreviation body :=
  (fun (i : Z) (output_shape : list Z) =>
     do pi <- load perm i;
     let p := to_size_t pi in
     do x <- load input_shape p;
     store output_shape i x).

Lemma PermuteShape_sizes :
  PermuteShape input_shape perm output_shape
  = do output_shape <- for_each (for_range 0 rank 1) body output_shape;
    Done (output_shape, OK tt).
Proof.
  unfold PermuteShape. rewrite perm_size, output_size, Z.eqb_refl. reflexivity.
Qed.

(** [PermuteShape] when every element of [perm], converted to [size_t],
    is an index of [input_shape]. *)
Lemma PermuteShape_spec :
  Forall (fun p => to_size_t p < rank) perm ->
  exists out,
    PermuteShape input_shape perm output_shape = Done (out, OK tt) /\
    length out = length input_shape /\
    forall (i : nat) p, perm !! i = Some p ->
      out !! i = input_shape !! Z.to_nat (to_size_t p).
Proof.
  intros Hgood. rewrite PermuteShape_sizes.
  destruct (for_each_pointwise
              (fun (i : Z) (j : nat) => Z.of_nat j =? i)
              (fun j : nat =>
                 default 0 (input_shape
                              !! Z.to_nat (to_size_t (default 0 (perm !! j)))))
              body (length input_shape) (for_range 0 rank 1))
    with (s := output_shape) as (out & -> & Hl & Hout); [| exact output_size |].
  - intros k s Hk Hs. apply elem_of_for_range_1 in Hk.
    rewrite (load_spec perm k 0) by lia. cbn [bind].
    destruct (lookup_lt_is_Some_2 perm (Z.to_nat k) ltac:(lia)) as [p Ep].
    rewrite Ep. cbn [default]. change (id p) with p.
    pose proof (Forall_lookup_1 _ _ _ _ Hgood Ep) as Hp. cbv beta in Hp.
    pose proof (to_size_t_range p) as Hp0.
    rewrite (load_spec input_shape (to_size_t p) 0) by lia. cbn [bind].
    destruct (store_spec s k (default 0 (input_shape !! Z.to_nat (to_size_t p))))
      as (s' & -> & Hs' & Hlook); [lia |].
    exists s'. split; [reflexivity |]. split; [lia |].
    intros j. rewrite Hlook. destruct (Z.eqb_spec (Z.of_nat j) k) as [<- | _];
      [| reflexivity].
    rewrite Nat2Z.id in Ep. rewrite Ep. reflexivity.
  - cbn [bind]. exists out. split; [reflexivity |]. split; [exact Hl |].
    intros i p Ep. rewrite Hout. pose proof (lookup_lt_Some _ _ _ Ep) as Hi.
    assert (existsb (fun k => Z.of_nat i =? k) (for_range 0 rank 1) = true) as ->.
    { apply existsb_exists. exists (Z.of_nat i). split; [| apply Z.eqb_refl].
      apply list_elem_of_In, elem_of_for_range_1. lia. }
    rewrite Ep. cbn [default]. change (id p) with p.
    pose proof (Forall_lookup_1 _ _ _ _ Hgood Ep) as Hp. cbv beta in Hp.
    pose proof (to_size_t_range p) as Hp0.
    destruct (lookup_lt_is_Some_2 input_shape (Z.to_nat (to_size_t p)) ltac:(lia))
      as [x ->].
    reflexivity.
Qed.

(** [PermuteShape] when an element of [perm], converted to [size_t], is
    no index of [input_shape]. *)
Lemma PermuteShape_fault :
  Exists (fun p => rank <= to_size_t p) perm ->
  PermuteShape input_shape perm output_shape = Fault OutOfBounds.
Proof.
  intros Hbad. rewrite PermuteShape_sizes.
  rewrite (for_each_fault body (length input_shape)); [reflexivity | | | exact output_size].
  - intros k s Hk Hs. apply elem_of_for_range_1 in Hk.
    rewrite (load_spec perm k 0) by lia. cbn [bind].
    destruct (load input_shape _) as [x | f] eqn:El; cbn [bind].
    + left. destruct (store_spec s k x) as (s' & -> & Hs' & _); [lia |].
      exists s'. split; [reflexivity | lia].
    + right. unfold load in El.
      destruct (_ <? 0); [congruence |].
      destruct (input_shape !! _); congruence.
  - apply Exists_exists in Hbad as (p & Hp & Hbig).
    apply list_elem_of_lookup_1 in Hp as [i Ep].
    pose proof (lookup_lt_Some _ _ _ Ep) as Hi.
    exists (Z.of_nat i). split; [apply elem_of_for_range_1; lia |].
    intros s Hs. rewrite (load_spec perm (Z.of_nat i) 0) by lia. cbn [bind].
    rewrite Nat2Z.id, Ep. cbn [default]. change (id p) with p.
    unfold load. destruct (Z.ltb_spec (to_size_t p) 0); [reflexivity |].
    rewrite (proj2 (lookup_ge_None input_shape (Z.to_nat (to_size_t p)))) by lia.
    reflexivity.
Qed.
End PermuteShapeFacts.

Section PermuteShapeExtras.
Local Open Scope Z_scope.

(** X20.  [PermuteShape] by a permutation of [0, ..., rank - 1] returns [OK]
    and writes [output_shape[i] = input_shape[perm[i]]]: the output
    holds the dimensions of the input in another order, none lost and
    none repeated. *)
Theorem PermuteShape_permutes (input_shape perm output_shape : list Z) :
  length perm = length input_shape ->
  length output_shape = length input_shape ->
  Z.of_nat (length input_shape) <= 2 ^ 64 ->
  perm ≡ₚ seqZ 0 (Z.of_nat (length input_shape)) ->
  exists out,
    PermuteShape input_shape perm output_shape = Done (out, OK tt) /\
    (forall (i : nat) p, perm !! i = Some p ->
       out !! i = input_shape !! Z.to_nat p) /\
    out ≡ₚ input_shape.
Proof.
  intros Hp Ho Hsz Hperm.
  assert (Forall (fun p => 0 <= p < Z.of_nat (length input_shape)) perm) as Hgood.
  { apply Forall_forall. intros p Hin. rewrite Hperm in Hin.
    apply elem_of_seqZ in Hin. lia. }
  destruct (PermuteShape_spec input_shape perm output_shape Hp Ho)
    as (out & E & Hl & Hout).
  { eapply Forall_impl; [exact Hgood |]. intros p Hin. cbv beta in *.
    rewrite to_size_t_small by lia. lia. }
  assert (forall (i : nat) p, perm !! i = Some p ->
            out !! i = input_shape !! Z.to_nat p) as Hout'.
  { intros i p Ep. rewrite (Hout i p Ep).
    pose proof (Forall_lookup_1 _ _ _ _ Hgood Ep) as Hin. cbv beta in Hin.
    rewrite to_size_t_small by lia. reflexivity. }
  exists out. split; [exact E |]. split; [exact Hout' |].
  set (f := fun p : Z => default 0 (input_shape !! Z.to_nat p)).
  assert (out = f <$> perm) as ->.
  { apply list_eq. intros i. rewrite list_lookup_fmap.
    destruct (perm !! i) as [p |] eqn:Ep; cbn [fmap option_fmap option_map].
    - rewrite (Hout' i p Ep). unfold f.
      pose proof (Forall_lookup_1 _ _ _ _ Hgood Ep) as Hin. cbv beta in Hin.
      destruct (lookup_lt_is_Some_2 input_shape (Z.to_nat p) ltac:(lia)) as [x ->].
      reflexivity.
    - apply lookup_ge_None. apply lookup_ge_None in Ep. lia. }
  rewrite Hperm.
  assert (f <$> seqZ 0 (Z.of_nat (length input_shape)) = input_shape) as ->;
    [| reflexivity].
  apply list_eq. intros i. rewrite list_lookup_fmap.
  destruct (input_shape !! i) as [x |] eqn:Ex.
  - pose proof (lookup_lt_Some _ _ _ Ex) as Hi.
    rewrite lookup_seqZ_lt by lia. cbn [fmap option_fmap option_map].
    unfold f. rewrite Z.add_0_l, Nat2Z.id, Ex. reflexivity.
  - apply lookup_ge_None in Ex. rewrite lookup_seqZ_ge by lia. reflexivity.
Qed.

(** X21.  [PermuteShape] checks the sizes of its arguments and nothing else.
    When the sizes differ it returns an error and leaves [output_shape]
    as it was; when they agree and an element of [perm] is negative or
    not below the rank, no error is returned: the element is used as an
    index into [input_shape], outside its bounds. *)
Theorem PermuteShape_unchecked_index (input_shape perm output_shape : list Z) :
  (length perm <> length input_shape \/
   length output_shape <> length input_shape ->
   exists msg,
     PermuteShape input_shape perm output_shape
     = Done (output_shape, Failed msg)) /\
  (length perm = length input_shape ->
   length output_shape = length input_shape ->
   Z.of_nat (length input_shape) <= 2 ^ 63 ->
   Exists (fun p => - 2 ^ 63 <= p < 2 ^ 64 /\
                    (p < 0 \/ Z.of_nat (length input_shape) <= p)) perm ->
   PermuteShape input_shape perm output_shape = Fault OutOfBounds).
Proof.
  split.
  - intros Hne. unfold PermuteShape.
    destruct (Z.eqb_spec (Z.of_nat (length input_shape)) (Z.of_nat (length perm)));
      destruct (Z.eqb_spec (Z.of_nat (length input_shape))
                  (Z.of_nat (length output_shape)));
      cbn [andb negb]; try (eexists; reflexivity).
    exfalso. lia.
  - intros Hp Ho Hsz Hbad.
    apply (PermuteShape_fault input_shape perm output_shape Hp Ho).
    eapply Exists_impl; [exact Hbad |]. intros p [Hr Hp']. cbv beta.
    unfold to_size_t.
    change (2 ^ 63) with 9223372036854775808 in *.
    change (2 ^ 64) with 18446744073709551616 in *.
    zlia.
Qed.

(** X22.  Permuting a shape by [perm] and then by the permutation that
    [InvertPerm] computes from [perm] gives the shape back. *)
Theorem PermuteShape_InvertPerm_round_trip (signed : bool) (bits : Z)
    (input_shape perm perm_inv buffer1 buffer2 : list Z) :
  0 < bits <= 64 ->
  Forall (fun p => fst (int_limits signed bits) <= p <= snd (int_limits signed bits))
         perm ->
  Z.of_nat (length perm) <= snd (int_limits signed bits) + 1 ->
  length perm = length input_shape -> length perm_inv = length input_shape ->
  length buffer1 = length input_shape -> length buffer2 = length input_shape ->
  perm ≡ₚ seqZ 0 (Z.of_nat (length perm)) ->
  exists inv permuted,
    InvertPerm signed bits perm perm_inv = Done (inv, OK tt) /\
    PermuteShape input_shape perm buffer1 = Done (permuted, OK tt) /\
    PermuteShape permuted inv buffer2 = Done (input_shape, OK tt).
Proof.
  intros Hbits Htyped Hrank Hp Hpi Hb1 Hb2 Hperm.
  destruct (InvertPerm_perm_spec signed bits perm perm_inv
              Hbits Htyped Hrank ltac:(congruence) Hperm)
    as (inv & E & Hl & H1 & H2).
  pose proof (int_limits_range signed bits perm perm_inv Hbits Htyped Hrank
                ltac:(congruence)) as (_ & Hhi & _).
  assert (Forall (fun p => 0 <= p < Z.of_nat (length perm)) perm) as Hgood.
  { apply Forall_forall. intros p Hin. rewrite Hperm in Hin.
    apply elem_of_seqZ in Hin. lia. }
  destruct (PermuteShape_spec input_shape perm buffer1 Hp Hb1)
    as (mid & Em & Hlm & Hmid).
  { eapply Forall_impl; [exact Hgood |]. intros p Hin. cbv beta in *.
    rewrite to_size_t_small by lia. lia. }
  destruct (PermuteShape_spec mid inv buffer2 ltac:(congruence) ltac:(congruence))
    as (back & Eb & Hlb & Hback).
  { apply Forall_lookup_2. intros j x Ej. destruct (H2 j x Ej) as (i & -> & Ep).
    pose proof (lookup_lt_Some _ _ _ Ep).
    rewrite to_size_t_small by lia. lia. }
  exists inv, mid. split; [exact E |]. split; [exact Em |].
  rewrite Eb. do 2 f_equal. apply list_eq. intros j.
  destruct (inv !! j) as [x |] eqn:Ej.
  - destruct (H2 j x Ej) as (i & -> & Ep).
    pose proof (lookup_lt_Some _ _ _ Ep). pose proof (lookup_lt_Some _ _ _ Ej).
    rewrite (Hback j _ Ej), to_size_t_small, Nat2Z.id by lia.
    rewrite (Hmid i _ Ep), to_size_t_small, Nat2Z.id by lia. reflexivity.
  - apply lookup_ge_None in Ej.
    rewrite (proj2 (lookup_ge_None back j)) by lia.
    rewrite (proj2 (lookup_ge_None input_shape j)) by lia. reflexivity.
Qed.
End PermuteShapeExtras.

(** The permutation of a transposition from NCHW to NHWC, on 32-bit
    unsigned elements. *)
Lemma InvertPerm_status_witness :
  exists out st,
    InvertPerm false 32 [0; 2; 3; 1] [9; 9; 9; 9] = Done (out, st) /\
    length out = length [9; 9; 9; 9] /\
    (st = OK tt <->
     length [9; 9; 9; 9] = length [0; 2; 3; 1] /\
     Forall (fun p => 0 <= p < Z.of_nat (length [0; 2; 3; 1])) [0; 2; 3; 1]).
Proof.
  apply (InvertPerm_status false 32 [0; 2; 3; 1] [9; 9; 9; 9]).
  - lia.
  - apply (bool_decide_unpack _). vm_compute. reflexivity.
  - vm_compute. congruence.
Defined.

(** A list with a repeated element, on 64-bit signed elements. *)
Lemma InvertPerm_repeated_elements_witness :
  exists out,
    InvertPerm true 64 [1; 1; 3; 0] [9; 9; 9; 9] = Done (out, OK tt) /\
    length out = length [9; 9; 9; 9] /\
    (forall (i : nat) p, [1; 1; 3; 0] !! i = Some p ->
       (forall i' : nat, (i < i')%nat -> [1; 1; 3; 0] !! i' <> Some p) ->
       out !! Z.to_nat p = Some (Z.of_nat i)) /\
    (forall j : nat, Z.of_nat j ∉ [1; 1; 3; 0] -> out !! j = [9; 9; 9; 9] !! j).
Proof.
  apply (InvertPerm_repeated_elements true 64 [1; 1; 3; 0] [9; 9; 9; 9]).
  - lia.
  - apply (bool_decide_unpack _). vm_compute. reflexivity.
  - vm_compute. congruence.
  - reflexivity.
  - apply (bool_decide_unpack _). vm_compute. reflexivity.
Defined.

Lemma InvertPerm_inverse_witness :
  exists out,
    InvertPerm false 32 [0; 2; 3; 1] [9; 9; 9; 9] = Done (out, OK tt) /\
    out ≡ₚ seqZ 0 (Z.of_nat (length [0; 2; 3; 1])) /\
    forall i j : nat,
      [0; 2; 3; 1] !! i = Some (Z.of_nat j) <-> out !! j = Some (Z.of_nat i).
Proof.
  apply (InvertPerm_inverse false 32 [0; 2; 3; 1] [9; 9; 9; 9]).
  - lia.
  - apply (bool_decide_unpack _). vm_compute. reflexivity.
  - vm_compute. congruence.
  - reflexivity.
  - apply (bool_decide_unpack _). vm_compute. reflexivity.
Defined.

Lemma InvertPerm_involutive_witness :
  exists out,
    InvertPerm false 32 [0; 2; 3; 1] [9; 9; 9; 9] = Done (out, OK tt) /\
    InvertPerm false 32 out [7; 7; 7; 7] = Done ([0; 2; 3; 1], OK tt).
Proof.
  apply (InvertPerm_involutive false 32 [0; 2; 3; 1] [9; 9; 9; 9] [7; 7; 7; 7]).
  - lia.
  - apply (bool_decide_unpack _). vm_compute. reflexivity.
  - vm_compute. congruence.
  - reflexivity.
  - reflexivity.
  - apply (bool_decide_unpack _). vm_compute. reflexivity.
Defined.

(** The shape [1, 3, 224, 224] taken from NCHW to NHWC. *)
Lemma PermuteShape_permutes_witness :
  exists out,
    PermuteShape [1; 3; 224; 224] [0; 2; 3; 1] [0; 0; 0; 0] = Done (out, OK tt) /\
    (forall (i : nat) p, [0; 2; 3; 1] !! i = Some p ->
       out !! i = [1; 3; 224; 224] !! Z.to_nat p) /\
    out ≡ₚ [1; 3; 224; 224].
Proof.
  apply (PermuteShape_permutes [1; 3; 224; 224] [0; 2; 3; 1] [0; 0; 0; 0]).
  - reflexivity.
  - reflexivity.
  - vm_compute. congruence.
  - apply (bool_decide_unpack _). vm_compute. reflexivity.
Defined.

(** An argument of another rank, and an element -1 among the indices. *)
Lemma PermuteShape_unchecked_index_witness :
  (exists msg,
     PermuteShape [1; 3; 224; 224] [0; 2; 1] [0; 0; 0; 0]
     = Done ([0; 0; 0; 0], Failed msg)) /\
  PermuteShape [1; 3; 224; 224] [0; 2; -1; 1] [0; 0; 0; 0] = Fault OutOfBounds.
Proof.
  split.
  - apply (proj1 (PermuteShape_unchecked_index [1; 3; 224; 224] [0; 2; 1] [0; 0; 0; 0])).
    left. vm_compute. congruence.
  - apply (proj2 (PermuteShape_unchecked_index [1; 3; 224; 224] [0; 2; -1; 1]
                    [0; 0; 0; 0])).
    + reflexivity.
    + reflexivity.
    + vm_compute. congruence.
    + apply (bool_decide_unpack _). vm_compute. reflexivity.
Defined.

Lemma PermuteShape_InvertPerm_round_trip_witness :
  exists inv permuted,
    InvertPerm false 32 [0; 2; 3; 1] [9; 9; 9; 9] = Done (inv, OK tt) /\
    PermuteShape [1; 3; 224; 224] [0; 2; 3; 1] [0; 0; 0; 0]
    = Done (permuted, OK tt) /\
    PermuteShape permuted inv [0; 0; 0; 0] = Done ([1; 3; 224; 224], OK tt).
Proof.
  apply (PermuteShape_InvertPerm_round_trip false 32 [1; 3; 224; 224]
           [0; 2; 3; 1] [9; 9; 9; 9] [0; 0; 0; 0] [0; 0; 0; 0]).
  - lia.
  - apply (bool_decide_unpack _). vm_compute. reflexivity.
  - vm_compute. congruence.
  - reflexivity.
  - reflexivity.
  - reflexivity.
  - reflexivity.
  - apply (bool_decide_unpack _). vm_compute. reflexivity.
Defined.

(** ** qnn_utils.cc: the tables of element types *)

Section TypeTables.
Local Open Scope Z_scope.
Context `{Platform}.

(** X23.  Every data type that [GetQnnDataType] returns, for a quantized
    tensor or not, has an element size: [GetElementSizeByType] does not
    throw on it, and the size is 1, 2, 4 or 8 bytes. *)
Theorem GetQnnDataType_has_size (is_quantized_tensor : bool)
    (type_proto : option TypeProto) (tensor_data_type : Qnn_DataType_t) :
  GetQnnDataType is_quantized_tensor type_proto = OK tensor_data_type ->
  exists size : Z,
    GetElementSizeByType tensor_data_type = Returns size /\
    In size [1; 2; 4; 8].
Proof.
  unfold GetQnnDataType, OnnxDataTypeToQnnDataType.
  destruct type_proto as [[[] onnx_data_type] |]; cbn [has_elem_type elem_type];
    [| discriminate ..].
  destruct is_quantized_tensor, onnx_data_type; cbn;
    intros E; inversion E; subst;
    eexists; (split; [reflexivity |]); cbn; tauto.
Qed.

(** X24.  The bounds [GetQminQmax] returns for a type span the whole width of
    its element: from [qmin] to [qmax] there are [2^(8 * size)] values,
    for the size that [GetElementSizeByType] returns. *)
Theorem GetQminQmax_full_width (qnn_data_type : Qnn_DataType_t) (qmin qmax : Z) :
  GetQminQmax id qnn_data_type = OK (qmin, qmax) ->
  exists size : Z,
    GetElementSizeByType qnn_data_type = Returns size /\
    qmax - qmin + 1 = 2 ^ (8 * size).
Proof.
  destruct qnn_data_type; cbn; intros E; inversion E; subst;
    eexists; (split; [reflexivity |]); reflexivity.
Qed.

(** X25.  The element types of a quantized tensor for which quantization
    parameters can be computed: [GetQnnDataType] followed by
    [GetQuantParams] succeeds exactly for the signed types of 4, 8, 16
    and 32 bits and the unsigned types of 4, 8 and 16 bits.  For every
    other element type, the unsigned 32-bit one included, one of the two
    reports an error. *)
Theorem quantized_types_with_params (rmin rmax : float) (symmetric : bool)
    (type_proto : TypeProto) :
  (exists tensor_data_type scale zero_point,
     GetQnnDataType true (Some type_proto) = OK tensor_data_type /\
     GetQuantParams rmin rmax tensor_data_type symmetric = OK (scale, zero_point))
  <->
  has_elem_type type_proto = true /\
  In (elem_type type_proto)
     [TensorProto_DataType_INT4; TensorProto_DataType_UINT4;
      TensorProto_DataType_INT8; TensorProto_DataType_UINT8;
      TensorProto_DataType_INT16; TensorProto_DataType_UINT16;
      TensorProto_DataType_INT32].
Proof.
  destruct type_proto as [has onnx_data_type]. cbn [has_elem_type elem_type].
  split.
  - intros (t & scale & zp & Et & Eq).
    destruct (GetQuantParams_supported _ _ _ _ _ _ Eq) as (qmin & qmax & Hq).
    unfold GetQnnDataType, OnnxDataTypeToQnnDataType in Et.
    cbn [has_elem_type elem_type] in Et.
    destruct has; [| discriminate]. split; [reflexivity |].
    destruct onnx_data_type; cbn in Et; inversion Et; subst; cbn in Hq;
      try discriminate; cbn; tauto.
  - intros [-> Hin].
    assert (exists t qmin qmax,
              GetQnnDataType true
                (Some {| has_elem_type := true; elem_type := onnx_data_type |}) = OK t /\
              GetQminQmax to_float t = OK (qmin, qmax)) as (t & qmin & qmax & Et & Hq).
    { cbn in Hin.
      repeat (destruct Hin as [<- | Hin]; [eexists _, _, _; split; reflexivity |]).
      contradiction. }
    pose proof (GetQuantParams_zero_point rmin rmax t symmetric qmin qmax Hq) as Hz.
    destruct (quant_range rmin rmax symmetric) as [a b].
    destruct Hz as (z & _ & _ & E & _).
    exists t. eexists _, _. split; [exact Et | exact E].
Qed.
End TypeTables.

Section TypeSizes.
Local Open Scope Z_scope.
Context `{Layout}.

(** X26.  The QNN type chosen for an ONNX element type has the element size
    of the ONNX type, for a quantized tensor or not.  The exceptions
    are the packed 4-bit types, whose ONNX size is that of a pair, and
    [bool], for which the two agree when [sizeof(bool)] is 1. *)
Theorem mapped_type_same_size (onnx_data_type : TensorProto_DataType)
    (is_quantized : bool) (qnn_data_type : Qnn_DataType_t) :
  OnnxDataTypeToQnnDataType onnx_data_type is_quantized = Some qnn_data_type ->
  onnx_data_type <> TensorProto_DataType_INT4 ->
  onnx_data_type <> TensorProto_DataType_UINT4 ->
  (onnx_data_type = TensorProto_DataType_BOOL -> sizeof_bool = 1) ->
  GetElementSizeByType qnn_data_type
  = Returns (GetElementSizeByType_onnx onnx_data_type).
Proof.
  unfold OnnxDataTypeToQnnDataType.
  destruct is_quantized, onnx_data_type; cbn; intros E H4 HU4 Hbool;
    inversion E; subst; try congruence; try reflexivity;
    rewrite Hbool by reflexivity; reflexivity.
Qed.
End TypeSizes.

Lemma GetQnnDataType_has_size_witness :
  exists size : Z,
    GetElementSizeByType QNN_DATATYPE_SFIXED_POINT_8 = Returns size /\
    In size [1; 2; 4; 8].
Proof.
  apply (GetQnnDataType_has_size true
           (Some {| has_elem_type := true;
                    elem_type := TensorProto_DataType_INT4 |})
           QNN_DATATYPE_SFIXED_POINT_8).
  reflexivity.
Defined.

Lemma GetQminQmax_full_width_witness :
  exists size : Z,
    GetElementSizeByType QNN_DATATYPE_SFIXED_POINT_16 = Returns size /\
    32767 - -32768 + 1 = 2 ^ (8 * size).
Proof.
  apply (GetQminQmax_full_width QNN_DATATYPE_SFIXED_POINT_16 (-32768) 32767).
  reflexivity.
Defined.

Lemma mapped_type_same_size_witness :
  GetElementSizeByType QNN_DATATYPE_UFIXED_POINT_16
  = Returns (GetElementSizeByType_onnx
               (H := {| sizeof_bool := 1; sizeof_Int4x2 := 1; sizeof_UInt4x2 := 1 |})
               TensorProto_DataType_UINT16).
Proof.
  apply (mapped_type_same_size
           (H := {| sizeof_bool := 1; sizeof_Int4x2 := 1; sizeof_UInt4x2 := 1 |})
           TensorProto_DataType_UINT16 true QNN_DATATYPE_UFIXED_POINT_16);
    [reflexivity | discriminate | discriminate | discriminate].
Defined.

(** ** qnn_utils.h: [ArrayHasString] *)

(** X27.  [ArrayHasString] returns [true] exactly when the string is one of
    the strings of the array. *)
Theorem ArrayHasString_spec (strings : list string) (str : string) :
  ArrayHasString strings str = true <-> str ∈ strings.
Proof.
  induction strings as [| s strings IH]; simpl.
  - split; [discriminate | intros Hin; inversion Hin].
  - rewrite elem_of_cons. destruct (String.eqb_spec s str) as [-> | Hne].
    + split; auto.
    + rewrite IH. split; [auto | intros [-> | ?]; [contradiction | assumption]].
Qed.

(** ** qnn_utils.cc: [NodeAttrHelper] *)

Section NodeAttrFacts.
Import NodeAttrHelper.
Local Open Scope Z_scope.

(** The conversion of a list of [int64_t] with [narrow]: the list
    itself when every element fits, nothing otherwise. *)
Lemma narrow_all_spec (lo hi : Z) (vals : list Z) :
  (Forall (fun v => lo <= v <= hi) vals /\ narrow_all lo hi vals = Returns vals) \/
  (Exists (fun v => ~ (lo <= v <= hi)) vals /\
   exists what, narrow_all lo hi vals = Throws what).
Proof.
  induction vals as [| v vals IH]; simpl.
  - left. split; [constructor | reflexivity].
  - unfold narrow.
    destruct (Z.leb_spec lo v), (Z.leb_spec v hi); cbn [andb];
      try (right; split; [left; lia | eexists; reflexivity]).
    destruct IH as [[Hall ->] | [Hex [what ->]]].
    + left. split; [constructor; [lia | exact Hall] | reflexivity].
    + right. split; [right; exact Hex | eexists; reflexivity].
Qed.

(** X28.  The getters that convert [int64_t] attribute values to [int32_t] or
    [uint32_t] never return a truncated value.  When the attribute is
    absent they return the default.  When it is present the default
    plays no part, even if the attribute holds no integer: the vector
    getters return the list [ints()] itself, same length and same
    values, when every element fits the target type, and throw when one
    does not; the scalar getters return [i()] itself when it fits and
    throw when it does not. *)
Theorem Get_narrowing_exact (node_attributes_ : NodeAttributes) (key : string)
    (def_val : Z) (def_vals : list Z) :
  match node_attributes_ !! key with
  | None =>
      Get_int32 node_attributes_ key def_val = Returns def_val /\
      Get_uint32 node_attributes_ key def_val = Returns def_val /\
      Get_int32s node_attributes_ key def_vals = Returns def_vals /\
      Get_uint32s node_attributes_ key def_vals = Returns def_vals
  | Some attr =>
      (if bool_decide (INT32_MIN <= i attr <= INT32_MAX)
       then Get_int32 node_attributes_ key def_val = Returns (i attr)
       else exists what, Get_int32 node_attributes_ key def_val = Throws what) /\
      (if bool_decide (0 <= i attr <= UINT32_MAX)
       then Get_uint32 node_attributes_ key def_val = Returns (i attr)
       else exists what, Get_uint32 node_attributes_ key def_val = Throws what) /\
      (if bool_decide (Forall (fun v => INT32_MIN <= v <= INT32_MAX) (ints attr))
       then Get_int32s node_attributes_ key def_vals = Returns (ints attr)
       else exists what, Get_int32s node_attributes_ key def_vals = Throws what) /\
      (if bool_decide (Forall (fun v => 0 <= v <= UINT32_MAX) (ints attr))
       then Get_uint32s node_attributes_ key def_vals = Returns (ints attr)
       else exists what, Get_uint32s node_attributes_ key def_vals = Throws what)
  end.
Proof.
  unfold Get_int32, Get_uint32, Get_int32s, Get_uint32s.
  destruct (node_attributes_ !! key) as [attr |]; [| repeat split].
  assert (forall lo hi v,
            if bool_decide (lo <= v <= hi) then narrow lo hi v = Returns v
            else exists what, narrow lo hi v = Throws what) as Hscalar.
  { intros lo hi v. unfold narrow.
    destruct (bool_decide_reflect (lo <= v <= hi)) as [Hv | Hv];
      destruct (Z.leb_spec lo v), (Z.leb_spec v hi); cbn [andb];
      try reflexivity; try lia; eexists; reflexivity. }
  assert (forall lo hi vals,
            if bool_decide (Forall (fun v => lo <= v <= hi) vals)
            then narrow_all lo hi vals = Returns vals
            else exists what, narrow_all lo hi vals = Throws what) as Hvector.
  { intros lo hi vals.
    destruct (bool_decide_reflect (Forall (fun v => lo <= v <= hi) vals)) as [Hv | Hv];
      destruct (narrow_all_spec lo hi vals) as [[Hall E] | [Hex E]];
      try exact E; try contradiction.
    exfalso. apply Exists_exists in Hex as (v & Hin & Hbad).
    rewrite Forall_forall in Hv. exact (Hbad (Hv v Hin)). }
  split; [apply Hscalar |]. split; [apply Hscalar |].
  split; [apply Hvector | apply Hvector].
Qed.
End NodeAttrFacts.
